(** * owo-vision: the inference pipeline's decoders, binarizer and model-service lifecycle

    A shallow embedding of the TypeScript sources:
    - [onehotDecode] (utils) and [HuntbotDecoder.decode]: positional one-hot decoding;
    - [YOLODecoder.decode]: the simplified bounding-box decoder;
    - [ImagePreprocessor.normalize]: binarization on the alpha channel;
    - [BaseONNXModelService]: [initialize], [dispose] and the load memo, with
      [HuntbotModelService.loadModel] and the first stage of [predict].

    Numbers.  A [Float32Array] element is modelled as a rational (a finite
    number, with exact arithmetic); the values the code itself brings in
    ([-Infinity] as the initial maximum, [NaN] from reading past the end of
    an array, and the infinities their products give) are the other
    constructors of [JS.num].  Rounding is not modelled. *)

From Stdlib Require Import ZArith QArith Lia String DecimalString.
From stdpp Require Import list strings gmap.

Open Scope Z_scope.

(** ** JavaScript values the sources compute with *)

Module JS.

Inductive num : Type :=
| NaN
| NegInf
| Fin (q : Q)
| PosInf.

(** [undefined] used as a number (comparison, product) is [NaN]. *)
Definition to_num (v : option Q) : num :=
  match v with
  | Some q => Fin q
  | None => NaN
  end.

Definition Qltb (a b : Q) : bool := negb (Qle_bool b a).

(** [a < b]: false as soon as one side is [NaN]. *)
Definition lt (a b : num) : bool :=
  match a, b with
  | NaN, _ | _, NaN => false
  | NegInf, NegInf => false
  | NegInf, _ => true
  | Fin _, NegInf => false
  | Fin x, Fin y => Qltb x y
  | Fin _, PosInf => true
  | PosInf, _ => false
  end.

(** [a > b] *)
Definition gt (a b : num) : bool := lt b a.

(** [a >= b]: false as soon as one side is [NaN]. *)
Definition ge (a b : num) : bool :=
  match a, b with
  | NaN, _ | _, NaN => false
  | _, _ => negb (lt a b)
  end.

(** [a * b] *)
Definition mul (a b : num) : num :=
  match a, b with
  | NaN, _ | _, NaN => NaN
  | Fin x, Fin y => Fin (x * y)
  | Fin x, PosInf | PosInf, Fin x =>
      match (x ?= 0)%Q with Eq => NaN | Gt => PosInf | Lt => NegInf end
  | Fin x, NegInf | NegInf, Fin x =>
      match (x ?= 0)%Q with Eq => NaN | Gt => NegInf | Lt => PosInf end
  | PosInf, PosInf | NegInf, NegInf => PosInf
  | PosInf, NegInf | NegInf, PosInf => NegInf
  end.

(** [array[i]]: [None] is [undefined] (index out of range). *)
Definition get {A : Type} (array : list A) (i : Z) : option A :=
  if i <? 0 then None else array !! Z.to_nat i.

(** [array.length] *)
Definition len {A : Type} (array : list A) : Z := Z.of_nat (length array).

(** [a % b] on integers: [None] is [NaN] (zero divisor); the sign follows
    the dividend. *)
Definition rem (a b : Z) : option Z :=
  if b =? 0 then None else Some (Z.rem a b).

(** [x !== 0] for the result of [%]. *)
Definition nonzero (r : option Z) : bool :=
  match r with
  | Some z => negb (z =? 0)
  | None => true
  end.

(** An integer inside a template literal. *)
Definition show (z : Z) : string := NilZero.string_of_int (Z.to_int z).

(** [String.fromCharCode(code)] for a code below 256. *)
Definition fromCharCode (code : Z) : string :=
  String (Ascii.ascii_of_nat (Z.to_nat code)) EmptyString.

End JS.

(** ** Results of decoding ([DecodedResult<T>], [DecodedCharacter]) *)

Record DecodedResult (T : Type) : Type := mkResult {
  value : T;
  confidence : JS.num;
  position : Z;
}.
Arguments mkResult {T} _ _ _.
Arguments value {T} _.
Arguments confidence {T} _.
Arguments position {T} _.

(** ** Positional one-hot decoder *)

Module Onehot.

(** [DecodedCharacter]: the field [char] is [value] here. *)
Definition DecodedCharacter : Type := DecodedResult string.

Record DecodeOptions : Type := {
  depth : Z;
  decoder : Z -> string;
  minConfidence : option Q;
}.

Definition lowercaseDecoder (code : Z) : string :=
  if (code <? 0) || (code >? 25) then "?" else JS.fromCharCode (code + 97).

Definition alphanumericDecoder (code : Z) : string :=
  if code =? 0 then " "
  else if (code >=? 1) && (code <=? 10) then JS.show (code - 1)
  else if (code >=? 11) && (code <=? 36) then JS.fromCharCode (code + 86)
  else "?".

Section Loops.
Variable array : list Q.
Variable depth : Z.
Variable decoder : Z -> string.
Variable minConfidence : Q.

(** [for (let offset = ...; offset < depth; offset++)] with [n]
    iterations left: the running maximum and its index. *)
Fixpoint scan (startIndex : Z) (n : nat) (offset : Z)
    (maxConfidence : JS.num) (maxIndex : Z) : JS.num * Z :=
  match n with
  | O => (maxConfidence, maxIndex)
  | S n' =>
      match JS.get array (startIndex + offset) with
      | Some confidence =>
          if JS.gt (JS.Fin confidence) maxConfidence
          then scan startIndex n' (offset + 1) (JS.Fin confidence) offset
          else scan startIndex n' (offset + 1) maxConfidence maxIndex
      | None => scan startIndex n' (offset + 1) maxConfidence maxIndex
      end
  end.

(** One turn of the loop over positions. *)
Definition decode_position (position : Z)
    (result : list (DecodedResult string)) : list (DecodedResult string) :=
  let startIndex := position * depth in
  let '(maxConfidence, maxIndex) :=
    scan startIndex (Z.to_nat depth) 0 JS.NegInf (-1) in
  if JS.ge maxConfidence (JS.Fin minConfidence) && negb (maxIndex =? -1)
  then result ++ [mkResult (decoder maxIndex) maxConfidence position]
  else result.

(** [for (let position = ...; position < numPositions; position++)]
    with [n] iterations left. *)
Fixpoint positions (n : nat) (position : Z)
    (result : list (DecodedResult string)) : list (DecodedResult string) :=
  match n with
  | O => result
  | S n' => positions n' (position + 1) (decode_position position result)
  end.

(** The two guards and the loop, as both decoders have them.  The
    division is exact once the second guard has passed. *)
Definition decode_checked : string + list (DecodedResult string) :=
  if JS.len array =? 0 then inl "Input array cannot be empty"
  else if JS.nonzero (JS.rem (JS.len array) depth) then
    inl ("Array length (" +:+ JS.show (JS.len array)
         +:+ ") must be divisible by depth (" +:+ JS.show depth +:+ ")")
  else
    let numPositions := Z.quot (JS.len array) depth in
    inr (positions (Z.to_nat numPositions) 0 []).
End Loops.

Definition onehotDecode (array : list Q) (options : DecodeOptions)
    : string + list DecodedCharacter :=
  decode_checked array (depth options) (decoder options)
    (default 0%Q (minConfidence options)).

End Onehot.

Module HuntbotDecoder.

Record HuntbotDecoderConfig : Type := {
  depth : Z;
  minConfidence : option Q;
}.

(** [Partial<HuntbotDecoderConfig>] *)
Record PartialConfig : Type := {
  depth_opt : option Z;
  minConfidence_opt : option Q;
}.

(** The constructor: [{ depth: 27, minConfidence: 0, ...config }]. *)
Definition new (config : option PartialConfig) : HuntbotDecoderConfig :=
  match config with
  | None => {| depth := 27; minConfidence := Some 0%Q |}
  | Some c =>
      {| depth := default 27 (depth_opt c);
         minConfidence := Some (default 0%Q (minConfidence_opt c)) |}
  end.

Definition decodeChar (code : Z) : string :=
  if (code <? 0) || (code >=? 26) then "?" else JS.fromCharCode (code + 97).

(** [{ ...this.defaultConfig, ...config }] *)
Definition merge (defaultConfig : HuntbotDecoderConfig)
    (config : option HuntbotDecoderConfig) : HuntbotDecoderConfig :=
  match config with
  | None => defaultConfig
  | Some c =>
      {| depth := depth c;
         minConfidence :=
           match minConfidence c with
           | Some m => Some m
           | None => minConfidence defaultConfig
           end |}
  end.

Definition decode (defaultConfig : HuntbotDecoderConfig) (array : list Q)
    (config : option HuntbotDecoderConfig)
    : string + list (DecodedResult string) :=
  let finalConfig := merge defaultConfig config in
  Onehot.decode_checked array (depth finalConfig) decodeChar
    (default 0%Q (minConfidence finalConfig)).

End HuntbotDecoder.

(** ** Bounding-box decoder *)

Module YOLODecoder.

(** The coordinates are array reads behind a non-null assertion: they
    are [undefined] ([None]) when the record runs past the buffer. *)
Record BoundingBox : Type := {
  x : option Q;
  y : option Q;
  width : option Q;
  height : option Q;
  class : string;
  confidence : JS.num;
}.

(** [numClasses] is a count; [minConfidence] is optional in the type and
    read behind a non-null assertion. *)
Record YOLODecoderConfig : Type := {
  numClasses : nat;
  classNames : list string;
  iouThreshold : option Q;
  minConfidence : option Q;
}.

(** The constructor: [{ iouThreshold: 0.45, minConfidence: 0.25, ...config }]. *)
Definition new (config : YOLODecoderConfig) : YOLODecoderConfig :=
  {| numClasses := numClasses config;
     classNames := classNames config;
     iouThreshold := Some (default 0.45%Q (iouThreshold config));
     minConfidence := Some (default 0.25%Q (minConfidence config)) |}.

(** [{ ...this.defaultConfig, ...config }] *)
Definition merge (defaultConfig : YOLODecoderConfig)
    (config : option YOLODecoderConfig) : YOLODecoderConfig :=
  match config with
  | None => defaultConfig
  | Some c =>
      {| numClasses := numClasses c;
         classNames := classNames c;
         iouThreshold :=
           match iouThreshold c with
           | Some t => Some t
           | None => iouThreshold defaultConfig
           end;
         minConfidence :=
           match minConfidence c with
           | Some m => Some m
           | None => minConfidence defaultConfig
           end |}
  end.

Section Loops.
Variable array : list Q.
Variable finalConfig : YOLODecoderConfig.

(** [5 + finalConfig.numClasses] *)
Definition stride : Z := 5 + Z.of_nat (numClasses finalConfig).

(** [for (let c = ...; c < finalConfig.numClasses; c++)] with [n]
    iterations left. *)
Fixpoint best_class (offset : Z) (n : nat) (c : Z)
    (maxClassProb : JS.num) (maxClassIdx : Z) : JS.num * Z :=
  match n with
  | O => (maxClassProb, maxClassIdx)
  | S n' =>
      let prob := JS.to_num (JS.get array (offset + 5 + c)) in
      if JS.gt prob maxClassProb
      then best_class offset n' (c + 1) prob c
      else best_class offset n' (c + 1) maxClassProb maxClassIdx
  end.

(** One turn of the loop over boxes. *)
Definition decode_box (i : Z)
    (results : list (DecodedResult BoundingBox))
    : list (DecodedResult BoundingBox) :=
  let offset := i * stride in
  let x := JS.get array offset in
  let y := JS.get array (offset + 1) in
  let w := JS.get array (offset + 2) in
  let h := JS.get array (offset + 3) in
  let objectness := JS.to_num (JS.get array (offset + 4)) in
  if JS.lt objectness (JS.to_num (minConfidence finalConfig)) then results
  else
    let '(maxClassProb, maxClassIdx) :=
      best_class offset (numClasses finalConfig) 0 JS.NegInf (-1) in
    let confidence := JS.mul objectness maxClassProb in
    if JS.ge confidence (JS.to_num (minConfidence finalConfig)) then
      results ++
        [mkResult
           {| x := x; y := y; width := w; height := h;
              class :=
                match JS.get (classNames finalConfig) maxClassIdx with
                | Some name => name
                | None => "class_" +:+ JS.show maxClassIdx
                end;
              confidence := confidence |}
           confidence i]
    else results.

(** [array.length / (5 + finalConfig.numClasses)]: not rounded. *)
Definition numBoxes : Q := inject_Z (JS.len array) / inject_Z stride.

(** [for (let i = ...; i < numBoxes; i++)]; [None] when the fuel runs
    out before the test fails. *)
Fixpoint boxes (fuel : nat) (i : Z)
    (results : list (DecodedResult BoundingBox))
    : option (list (DecodedResult BoundingBox)) :=
  match fuel with
  | O => None
  | S fuel' =>
      if JS.Qltb (inject_Z i) numBoxes
      then boxes fuel' (i + 1) (decode_box i results)
      else Some results
  end.
End Loops.

(** The loop makes at most [array.length] turns. *)
Definition decode (defaultConfig : YOLODecoderConfig) (array : list Q)
    (config : option YOLODecoderConfig)
    : option (list (DecodedResult BoundingBox)) :=
  let finalConfig := merge defaultConfig config in
  boxes array finalConfig (S (length array)) 0 [].

End YOLODecoder.

(** The decoder section of [YOLOModelService]'s default configuration. *)
Module YOLOModelService.
Definition defaultDecoderConfig : YOLODecoder.YOLODecoderConfig :=
  {| YOLODecoder.numClasses := 80;
     YOLODecoder.classNames := [];
     YOLODecoder.iouThreshold := None;
     YOLODecoder.minConfidence := Some 0.25%Q |}.
End YOLOModelService.

(** ** Binarizing preprocessor: [ImagePreprocessor.normalize] *)

Module ImagePreprocessor.

Record Color : Type := { r : Z; g : Z; b : Z; alpha : Z }.

(** [Required<PreprocessConfig>] *)
Record PreprocessConfig : Type := {
  width : Z;
  height : Z;
  channels : Z;
  threshold : Q;
  backgroundColor : Color;
}.

Definition DEFAULTS : PreprocessConfig :=
  {| width := 160; height := 64; channels := 1; threshold := 254%Q;
     backgroundColor := {| r := 0; g := 0; b := 0; alpha := 0 |} |}.

(** A byte of the raw pixel buffer as a number. *)
Definition byte_value (v : Byte.byte) : Z := Z.of_N (Byte.to_N v).

Section Normalize.
Variable config : PreprocessConfig.
Variable buffer : list Byte.byte.
Variable channels : Z.
Variable targetSize : Z.

(** The body of the loop at byte offset [i].  [i] is a multiple of
    [channels], so the division is exact; a typed-array store is
    written only inside the array. *)
Definition normalize_pixel (i : Z) (normalized : list Q) : list Q :=
  let pixelIndex := Z.quot i channels in
  if pixelIndex <? targetSize then
    let alphaValue := default 255 (byte_value <$> JS.get buffer (i + 3)) in
    if pixelIndex <? 0 then normalized
    else
      <[Z.to_nat pixelIndex :=
          if JS.Qltb (inject_Z alphaValue) (threshold config)
          then 1%Q else 0%Q]> normalized
  else normalized.

(** [for (let i = ...; i < buffer.length; i += channels)]; [None] when
    the fuel runs out before the test fails. *)
Fixpoint pixels (fuel : nat) (i : Z) (normalized : list Q)
    : option (list Q) :=
  match fuel with
  | O => None
  | S fuel' =>
      if i <? JS.len buffer
      then pixels fuel' (i + channels) (normalize_pixel i normalized)
      else Some normalized
  end.
End Normalize.

(** [new Float32Array(targetSize)] is zero-filled.  With a positive
    [channels] the loop makes at most [buffer.length] turns. *)
Definition normalize (config : PreprocessConfig) (buffer : list Byte.byte)
    (width height channels : Z) : option (list Q) :=
  let targetSize := width * height * ImagePreprocessor.channels config in
  let normalized := replicate (Z.to_nat targetSize) 0%Q in
  pixels config buffer channels targetSize (S (length buffer)) 0 normalized.

End ImagePreprocessor.

(** ** Model-service lifecycle: [BaseONNXModelService] as [HuntbotModelService] extends it

    The service is a state machine driven by the calls made on it and by
    the settling of the operations it awaits.  A call runs up to its first
    [await]; what follows an [await] is a transition of its own. *)

Module ModelService.

(** How a promise stands. *)
Inductive settlement : Type :=
| Pending
| Fulfilled
| Rejected (message : string).

(** An opened [InferenceSession], by handle. *)
Definition Session : Type := nat.

(** [session] and [initPromise] are the fields of the class.  [promises]
    holds the promise of every [loadModel] call so far, by index;
    [creates] counts the calls of [InferenceSession.create]; [releasing]
    counts the [dispose] calls suspended on [session.release]. *)
Record state : Type := mkState {
  session : option Session;
  initPromise : option nat;
  promises : list settlement;
  creates : nat;
  releasing : nat;
}.

(** A newly constructed service. *)
Definition fresh : state :=
  {| session := None; initPromise := None; promises := [];
     creates := 0; releasing := 0 |}.

(** [loadModel()] up to [await InferenceSession.create(...)]: one more
    load is in flight, and the call returns its promise. *)
Definition loadModel (st : state) : state * nat :=
  let p := length (promises st) in
  ({| session := session st; initPromise := initPromise st;
      promises := promises st ++ [Pending];
      creates := S (creates st); releasing := releasing st |}, p).

(** What the promise returned by [initialize()] resolves with: nothing
    ([return;]) or the memoized load ([return this.initPromise]). *)
Inductive init_result : Type :=
| Resolved
| Follows (p : nat).

Definition initialize (st : state) : state * init_result :=
  match session st with
  | Some _ => (st, Resolved)
  | None =>
      match initPromise st with
      | None =>
          let '(st', p) := loadModel st in
          ({| session := session st'; initPromise := Some p;
              promises := promises st'; creates := creates st';
              releasing := releasing st' |}, Follows p)
      | Some p => (st, Follows p)
      end
  end.

(** [loadModel] resumed after [create] resolved for load [p]:
    [this.session = ...], and the load is fulfilled. *)
Definition create_resolved (p : nat) (s : Session) (st : state) : state :=
  match promises st !! p with
  | Some Pending =>
      {| session := Some s; initPromise := initPromise st;
         promises := <[p := Fulfilled]> (promises st);
         creates := creates st; releasing := releasing st |}
  | _ => st
  end.

(** [loadModel] resumed after [create] threw for load [p]: the [catch]
    throws, and the load is rejected. *)
Definition create_rejected (p : nat) (st : state) : state :=
  match promises st !! p with
  | Some Pending =>
      {| session := session st; initPromise := initPromise st;
         promises :=
           <[p := Rejected "Failed to initialize Huntbot model"]> (promises st);
         creates := creates st; releasing := releasing st |}
  | _ => st
  end.

Definition isInitialized (st : state) : bool :=
  match session st with
  | Some _ => true
  | None => false
  end.

(** [dispose()] up to [await this.session.release()]; without a session
    it runs through and clears the memo. *)
Definition dispose (st : state) : state :=
  match session st with
  | Some _ =>
      {| session := session st; initPromise := initPromise st;
         promises := promises st; creates := creates st;
         releasing := S (releasing st) |}
  | None =>
      {| session := None; initPromise := None;
         promises := promises st; creates := creates st;
         releasing := releasing st |}
  end.

(** [dispose] resumed after [release] resolved. *)
Definition release_resolved (st : state) : state :=
  match releasing st with
  | O => st
  | S n =>
      {| session := None; initPromise := None;
         promises := promises st; creates := creates st;
         releasing := n |}
  end.

(** [dispose] resumed after [release] threw: nothing is cleared. *)
Definition release_rejected (st : state) : state :=
  {| session := session st; initPromise := initPromise st;
     promises := promises st; creates := creates st;
     releasing := pred (releasing st) |}.

(** How the promise returned by [initialize()] stands. *)
Definition settled (st : state) (res : init_result) : settlement :=
  match res with
  | Resolved => Fulfilled
  | Follows p => default Pending (promises st !! p)
  end.

(** [predict] as far as the load is concerned. *)
Inductive predict_outcome : Type :=
| Waits (res : init_result)
| Fails (message : string)
| Proceeds (s : Session).

(** [predict] after [await this.initialize()]: a rejection goes to the
    [catch], which wraps the message; otherwise the session is checked
    and the later stages (preprocess, run, decode) follow. *)
Definition predict_after (st : state) (res : init_result) : predict_outcome :=
  match settled st res with
  | Pending => Waits res
  | Rejected message => Fails ("Failed to solve Huntbot captcha: " +:+ message)
  | Fulfilled =>
      match session st with
      | None => Fails "Failed to solve Huntbot captcha: Session not initialized"
      | Some s => Proceeds s
      end
  end.

(** [predict(...)] up to the point where the load has been awaited. *)
Definition predict (st : state) : state * predict_outcome :=
  let '(st', res) := initialize st in
  (st', predict_after st' res).

Inductive event : Type :=
| CallInitialize
| CallPredict
| CreateResolved (p : nat) (s : Session)
| CreateRejected (p : nat)
| CallDispose
| ReleaseResolved
| ReleaseRejected.

Definition step (st : state) (ev : event) : state :=
  match ev with
  | CallInitialize => fst (initialize st)
  | CallPredict => fst (predict st)
  | CreateResolved p s => create_resolved p s st
  | CreateRejected p => create_rejected p st
  | CallDispose => dispose st
  | ReleaseResolved => release_resolved st
  | ReleaseRejected => release_rejected st
  end.

Definition run (st : state) (evs : list event) : state := foldl step st evs.

(** The events that belong to a [dispose()] call. *)
Definition of_dispose (ev : event) : bool :=
  match ev with
  | CallDispose | ReleaseResolved | ReleaseRejected => true
  | _ => false
  end.

(** The event starts a model load in [st]. *)
Definition starts_load (st : state) (ev : event) : Prop :=
  creates (step st ev) = S (creates st).

End ModelService.

(** ** What the specification says, in its own words

    These definitions follow the specification's sentences, not the code;
    the theorems below compare the decoders with them. *)

Module Spec.

(** "Scan left-to-right and keep the first index attaining the maximum
    value": the head of a block wins unless the maximum of the rest is
    strictly above it. *)
Fixpoint argmax (values : list Q) : option (nat * Q) :=
  match values with
  | [] => None
  | v :: rest =>
      match argmax rest with
      | Some (i, m) => if JS.Qltb v m then Some (S i, m) else Some (O, v)
      | None => Some (O, v)
      end
  end.

(** [m] is the maximum of [values] and [i] the first index attaining it. *)
Definition first_max (values : list Q) (i : nat) (m : Q) : Prop :=
  values !! i = Some m
  /\ (forall j v, values !! j = Some v -> (v <= m)%Q)
  /\ (forall j v, values !! j = Some v -> (j < i)%nat -> (v < m)%Q).

(** The [p]-th of the contiguous chunks of [size] values. *)
Definition chunk (array : list Q) (size : nat) (p : nat) : list Q :=
  take size (drop (p * size) array).

(** One-hot: "a position contributes a result only if
    [maxValue >= minConfidence]; otherwise it is dropped". *)
Definition onehot_position (decoder : Z -> string) (minConfidence : Q)
    (p : nat) (block : list Q) : option (DecodedResult string) :=
  match argmax block with
  | Some (i, m) =>
      if Qle_bool minConfidence m
      then Some (mkResult (decoder (Z.of_nat i)) (JS.Fin m) (Z.of_nat p))
      else None
  | None => None
  end.

(** One-hot: the blocks in order, each contributing at most one result. *)
Definition onehot (array : list Q) (depth : Z) (decoder : Z -> string)
    (minConfidence : Q) : list (DecodedResult string) :=
  omap (fun p => onehot_position decoder minConfidence p
                   (chunk array (Z.to_nat depth) p))
       (seq 0 (Z.to_nat (JS.len array / depth))).

(** Boxes: "if [objectness < minConfidence], skip entirely.  Else select
    the class index with maximum [classProb]; final confidence
    [= objectness * maxClassProb]; emit only if this product also clears
    [minConfidence]", for a record [x, y, w, h, objectness, classProb...]. *)
Definition box_record (classNames : list string) (minConfidence : Q)
    (i : nat) (record : list Q)
    : option (DecodedResult YOLODecoder.BoundingBox) :=
  match record !! 4%nat with
  | None => None
  | Some objectness =>
      if JS.Qltb objectness minConfidence then None
      else
        match argmax (drop 5 record) with
        | None => None
        | Some (k, maxClassProb) =>
            let confidence := (objectness * maxClassProb)%Q in
            if Qle_bool minConfidence confidence then
              Some (mkResult
                      {| YOLODecoder.x := record !! 0%nat;
                         YOLODecoder.y := record !! 1%nat;
                         YOLODecoder.width := record !! 2%nat;
                         YOLODecoder.height := record !! 3%nat;
                         YOLODecoder.class :=
                           default ("class_" +:+ JS.show (Z.of_nat k))
                                   (classNames !! k);
                         YOLODecoder.confidence := JS.Fin confidence |}
                      (JS.Fin confidence) (Z.of_nat i))
            else None
        end
  end.

(** Boxes: the whole records in input order, each contributing at most
    one result. *)
Definition boxes (array : list Q) (numClasses : nat)
    (classNames : list string) (minConfidence : Q)
    : list (DecodedResult YOLODecoder.BoundingBox) :=
  omap (fun i => box_record classNames minConfidence i
                   (chunk array (5 + numClasses) i))
       (seq 0 (length array / (5 + numClasses))).

(** The positions of a result list increase strictly. *)
Definition increasing {T : Type} (results : list (DecodedResult T)) : Prop :=
  forall i j r1 r2,
    results !! i = Some r1 -> results !! j = Some r2 ->
    (i < j)%nat -> position r1 < position r2.

End Spec.

(** ** Loop bounds and invariants used in the proofs *)

Module Aux.

(** The number of turns of [for (i = 0; i < length / stride; i++)] and of
    [for (i = 0; i < length; i += stride)]: the integers [i >= 0] with
    [i * stride < length]. *)
Definition turns (length stride : Z) : nat :=
  Z.to_nat ((length + stride - 1) / stride).

(** [YOLODecoderConfig] with another threshold. *)
Definition with_minConfidence (config : YOLODecoder.YOLODecoderConfig)
    (m : Q) : YOLODecoder.YOLODecoderConfig :=
  {| YOLODecoder.numClasses := YOLODecoder.numClasses config;
     YOLODecoder.classNames := YOLODecoder.classNames config;
     YOLODecoder.iouThreshold := YOLODecoder.iouThreshold config;
     YOLODecoder.minConfidence := Some m |}.

(** What [normalize] stores for pixel [p]: 1 when the byte three places
    after the pixel's first byte (255 when there is none) is below the
    threshold, else 0. *)
Definition pixel_value (config : ImagePreprocessor.PreprocessConfig)
    (buffer : list Byte.byte) (channels : Z) (p : nat) : Q :=
  if JS.Qltb
       (inject_Z (default 255 (ImagePreprocessor.byte_value
                                 <$> JS.get buffer (Z.of_nat p * channels + 3))))
       (ImagePreprocessor.threshold config)
  then 1%Q else 0%Q.

(** The output array once the pixels before [j] have been handled. *)
Definition normalized_upto (config : ImagePreprocessor.PreprocessConfig)
    (buffer : list Byte.byte) (channels targetSize : Z) (j : nat)
    (normalized : list Q) : Prop :=
  length normalized = Z.to_nat targetSize
  /\ forall p : nat,
       Z.of_nat p < targetSize ->
       normalized !! p
       = Some (if (p <? j)%nat then pixel_value config buffer channels p else 0%Q).

(** What holds of a service that was constructed and never disposed: no
    load before the memo is set, one load (promise 0) once it is, and a
    session only after that load was fulfilled. *)
Definition never_disposed (st : ModelService.state) : Prop :=
  ModelService.releasing st = O
  /\ match ModelService.initPromise st with
     | None =>
         ModelService.session st = None
         /\ ModelService.promises st = []
         /\ ModelService.creates st = O
     | Some p =>
         p = O
         /\ length (ModelService.promises st) = 1%nat
         /\ ModelService.creates st = 1%nat
         /\ (ModelService.session st <> None ->
             ModelService.promises st !! O = Some ModelService.Fulfilled)
     end.

End Aux.

(** ** Strings and untyped values *)

Module Str.

(** [s.length] *)
Definition len (s : string) : Z := Z.of_nat (String.length s).

(** [text.substring(0, end)]: a negative [end] counts as 0, one past the
    end as the length. *)
Definition substring0 (text : string) (end_ : Z) : string :=
  substring 0 (Z.to_nat end_) text.

(** [s.endsWith(suffix)] *)
Definition endsWith (s suffix : string) : bool :=
  if (String.length suffix <=? String.length s)%nat
  then String.eqb
         (substring (String.length s - String.length suffix)
            (String.length suffix) s)
         suffix
  else false.

(** [parts.join(separator)] *)
Definition join (separator : string) (parts : list string) : string :=
  String.concat separator parts.

(** The line feed of ["\n"]. *)
Definition newline : string := String (Ascii.ascii_of_nat 10) EmptyString.

(** A string used as a condition: the empty string is falsy. *)
Definition truthy (s : string) : bool := negb (String.eqb s "").

(** [list.includes(s)] *)
Definition includes (list : list string) (s : string) : bool :=
  existsb (String.eqb s) list.

End Str.

(** ** The dependency container ([Container]) *)

Module Container.

(** What a registry slot can hold ([any]); an object is known by its
    reference. *)
Inductive any : Type :=
| Undefined
| Null
| Boolean (b : bool)
| Number (n : JS.num)
| Text (s : string)
| Object (ref : nat).

(** [!instance] is false for these. *)
Definition truthy (v : any) : bool :=
  match v with
  | Undefined | Null => false
  | Boolean b => b
  | Number (JS.Fin q) => negb (Qeq_bool q 0)
  | Number JS.NaN => false
  | Number _ => true
  | Text s => Str.truthy s
  | Object _ => true
  end.

(** A [symbol]: its identity, and the description [toString] shows. *)
Record symbol : Type := {
  id : positive;
  description : string;
}.

Definition toString (token : symbol) : string :=
  "Symbol(" +:+ description token +:+ ")".

(** [registry.set(token, instance)] *)
Definition register (token : symbol) (instance : any)
    (registry : gmap positive any) : gmap positive any :=
  <[id token := instance]> registry.

(** [resolve]: [inl] is the message of the error thrown. *)
Definition resolve (token : symbol) (registry : gmap positive any)
    : string + any :=
  let instance := default Undefined (registry !! id token) in
  if negb (truthy instance)
  then inl ("No instance found for token: " +:+ toString token)
  else inr instance.

End Container.

(** ** The command logger's text helpers ([CommandLogger]) *)

Module CommandLogger.

Definition MAX_FIELD_LENGTH : Z := 1024.

(** [truncate(text, maxLength, prefix = "```", suffix = "```")] *)
Definition truncate (text : string) (maxLength : Z)
    (prefix suffix : option string) : string :=
  let prefix := default "```" prefix in
  let suffix := default "```" suffix in
  let availableLength := maxLength - Str.len prefix - Str.len suffix in
  if Str.len text <=? availableLength then prefix +:+ text +:+ suffix
  else prefix +:+ Str.substring0 text (availableLength - 3) +:+ "..." +:+ suffix.

Record EmbedField : Type := { name : string; value : string }.

Record Embed : Type := {
  title : option string;
  description : option string;
  fields : list EmbedField;
}.

(** A reply as far as [formatReplyMessage] reads it; [attachments] is
    [reply.attachments.size]. *)
Record Message : Type := {
  content : string;
  embeds : list Embed;
  attachments : nat;
}.

(** A nullable string used as a condition. *)
Definition present (s : option string) : option string :=
  match s with
  | Some text => if Str.truthy text then Some text else None
  | None => None
  end.

(** The [parts] collected from an embed. *)
Definition embed_parts (embed : Embed) : list string :=
  let parts := [] in
  let parts :=
    match present (title embed) with
    | Some text => parts ++ ["**" +:+ text +:+ "**"]
    | None => parts
    end in
  let parts :=
    match present (description embed) with
    | Some text => parts ++ [text]
    | None => parts
    end in
  foldl (fun parts field =>
           parts ++ ["**" +:+ name field +:+ ":** " +:+ value field])
        parts (fields embed).

Definition formatReplyMessage (reply : Message) : string :=
  if Str.truthy (content reply)
  then truncate (content reply) MAX_FIELD_LENGTH None None
  else
    match embeds reply with
    | embed :: _ =>
        truncate (Str.join Str.newline (embed_parts embed))
          MAX_FIELD_LENGTH None None
    | [] =>
        if (0 <? attachments reply)%nat
        then "[" +:+ JS.show (Z.of_nat (attachments reply)) +:+ " attachment(s)]"
        else "*(Empty response)*"
    end.

End CommandLogger.

(** ** Rendering decoded characters *)

Module DecodedText.

(** [decodeToString] of the utilities, and [BaseDecoder.toString] on
    string values: [results.map(r => r.char).join("")]. *)
Definition decodeToString (results : list (DecodedResult string)) : string :=
  Str.join "" (value <$> results).

End DecodedText.

(** ** Crop and pad geometry of [ImagePreprocessor] *)

Module ImageGeometry.

(** The argument of [sharp(...).extract]. *)
Record Region : Type := {
  left : Z;
  top : Z;
  width : Z;
  height : Z;
}.

(** The argument of [image.extend], without the background colour. *)
Record Padding : Type := {
  padLeft : Z;
  padTop : Z;
  padRight : Z;
  padBottom : Z;
}.

(** [extractCenterRegion]: [Math.floor] of a half is the floor division. *)
Definition extractCenterRegion (config : ImagePreprocessor.PreprocessConfig)
    (imgWidth imgHeight : Z) : Region :=
  let targetWidth := Z.min imgWidth (ImagePreprocessor.width config) in
  let targetHeight := Z.min imgHeight (ImagePreprocessor.height config) in
  let left := Z.max 0 ((imgWidth - targetWidth) / 2) in
  let top := Z.max 0 ((imgHeight - targetHeight) / 2) in
  {| left := left; top := top; width := targetWidth; height := targetHeight |}.

(** [padImage] *)
Definition padImage (paddingX paddingY : Z) : Padding :=
  let padLeft := Z.max 0 (paddingX / 2) in
  let padTop := Z.max 0 (paddingY / 2) in
  let padRight := Z.max 0 (paddingX - padLeft) in
  let padBottom := Z.max 0 (paddingY - padTop) in
  {| padLeft := padLeft; padTop := padTop;
     padRight := padRight; padBottom := padBottom |}.

End ImageGeometry.

(** ** The normalizing preprocessor: [YOLOPreprocessor.normalize] *)

Module YOLOPreprocessor.

Record YOLOPreprocessConfig : Type := {
  width : Z;
  height : Z;
  channels : Z;
  normalize_flag : bool;
  meanValues : list Q;
  stdValues : list Q;
}.

Definition DEFAULTS : YOLOPreprocessConfig :=
  {| width := 640; height := 640; channels := 3; normalize_flag := true;
     meanValues := [0.485; 0.456; 0.406]%Q;
     stdValues := [0.229; 0.224; 0.225]%Q |}.

(** [(pixelValue - mean) / std] where a missing mean or deviation is
    [undefined] and a zero deviation divides by zero. *)
Definition standardize (pixelValue : Q) (mean std : option Q) : JS.num :=
  match mean, std with
  | Some m, Some s =>
      if Qeq_bool s 0 then
        match (pixelValue - m ?= 0)%Q with
        | Eq => JS.NaN
        | Gt => JS.PosInf
        | Lt => JS.NegInf
        end
      else JS.Fin ((pixelValue - m) / s)
  | _, _ => JS.NaN
  end.

(** The value stored at index [i]. *)
Definition normalize_at (config : YOLOPreprocessConfig)
    (buffer : list Byte.byte) (channels : Z) (i : nat) : JS.num :=
  let channelIdx := JS.rem (Z.of_nat i) channels in
  match buffer !! i with
  | None => JS.NaN
  | Some v =>
      let pixelValue := (inject_Z (ImagePreprocessor.byte_value v) / 255)%Q in
      if normalize_flag config then
        standardize pixelValue
          (channelIdx ≫= JS.get (meanValues config))
          (channelIdx ≫= JS.get (stdValues config))
      else JS.Fin pixelValue
  end.

(** [for (let i = 0; i < size; i++) normalized[i] = ...] on the
    zero-filled array of [size] values. *)
Definition normalize (config : YOLOPreprocessConfig)
    (buffer : list Byte.byte) (channels : Z) : list JS.num :=
  let size := length buffer in
  foldl (fun normalized i =>
           <[i := normalize_at config buffer channels i]> normalized)
        (replicate size (JS.Fin 0)) (seq 0 size).

End YOLOPreprocessor.

(** ** The singleton of [HuntbotModelService] *)

Module HuntbotModelService.

Record HuntbotPreprocessConfig : Type := {
  width : Z;
  height : Z;
  channels : Z;
  threshold : option Q;
}.

Record HuntbotModelConfig : Type := {
  modelPath : string;
  preprocessor : HuntbotPreprocessConfig;
  decoder : HuntbotDecoder.HuntbotDecoderConfig;
}.

(** [Partial<HuntbotModelConfig>]: every field may be missing, a field
    that is there is whole. *)
Record PartialModelConfig : Type := {
  modelPath_opt : option string;
  preprocessor_opt : option HuntbotPreprocessConfig;
  decoder_opt : option HuntbotDecoder.HuntbotDecoderConfig;
}.

(** [defaultPath] stands for [path.resolve(getRootData().root,
    "models/huntbot.onnx")]. *)
Definition defaultConfig (defaultPath : string) : HuntbotModelConfig :=
  {| modelPath := defaultPath;
     preprocessor :=
       {| width := 160; height := 64; channels := 1; threshold := Some 254%Q |};
     decoder :=
       {| HuntbotDecoder.depth := 27;
          HuntbotDecoder.minConfidence := Some 0%Q |} |}.

(** [finalConfig] of the constructor: the two nested sections are merged
    field by field. *)
Definition finalConfig (defaultPath : string)
    (config : option PartialModelConfig) : HuntbotModelConfig :=
  let defaults := defaultConfig defaultPath in
  {| modelPath := default (modelPath defaults) (config ≫= modelPath_opt);
     preprocessor :=
       match config ≫= preprocessor_opt with
       | None => preprocessor defaults
       | Some c =>
           {| width := width c; height := height c; channels := channels c;
              threshold :=
                match threshold c with
                | Some t => Some t
                | None => threshold (preprocessor defaults)
                end |}
       end;
     decoder := HuntbotDecoder.merge (decoder defaults) (config ≫= decoder_opt) |}.

(** A constructed service: its configuration, the default configuration
    of its decoder and its lifecycle state. *)
Record service : Type := {
  config : HuntbotModelConfig;
  decoderConfig : HuntbotDecoder.HuntbotDecoderConfig;
  lifecycle : ModelService.state;
}.

(** The process: the container, the static [instance] and the services
    constructed so far, by reference. *)
Record world : Type := {
  registry : gmap positive Container.any;
  instance : option nat;
  services : list service;
}.

Section Singleton.
Variable Logger : Container.symbol.
Variable defaultPath : string.

(** [new HuntbotModelService(config)]: [inl] when resolving the logger
    throws. *)
Definition construct (config : option PartialModelConfig) (w : world)
    : string + service :=
  let final := finalConfig defaultPath config in
  match Container.resolve Logger (registry w) with
  | inl message => inl message
  | inr _ =>
      inr {| config := final;
             decoderConfig :=
               HuntbotDecoder.new
                 (Some {| HuntbotDecoder.depth_opt :=
                            Some (HuntbotDecoder.depth (decoder final));
                          HuntbotDecoder.minConfidence_opt :=
                            HuntbotDecoder.minConfidence (decoder final) |});
             lifecycle := ModelService.fresh |}
  end.

(** [getInstance(config)]: the reference of the singleton. *)
Definition getInstance (config : option PartialModelConfig) (w : world)
    : string + world * nat :=
  match instance w with
  | Some ref => inr (w, ref)
  | None =>
      match construct config w with
      | inl message => inl message
      | inr object =>
          inr ({| registry := registry w;
                  instance := Some (length (services w));
                  services := services w ++ [object] |},
               length (services w))
      end
  end.
End Singleton.

(** [reset()], and what [dispose()] does after [await super.dispose()]. *)
Definition reset (w : world) : world :=
  {| registry := registry w; instance := None; services := services w |}.

(** A lifecycle transition of the service at [ref]. *)
Definition on_service (ref : nat)
    (f : ModelService.state -> ModelService.state) (w : world) : world :=
  {| registry := registry w; instance := instance w;
     services :=
       match services w !! ref with
       | Some object =>
           <[ref := {| config := config object;
                       decoderConfig := decoderConfig object;
                       lifecycle := f (lifecycle object) |}]> (services w)
       | None => services w
       end |}.

End HuntbotModelService.

(** ** Download and validation of the image ([SolveCommand]) *)

Module SolveCommand.

Definition MAX_FILE_SIZE : Z := 10 * 1024 * 1024.

Definition ALLOWED_MIME_TYPES : list string :=
  ["image/png"; "image/webp"; "image/jpeg"; "image/jpg"].

Definition ALLOWED_DOMAINS : list string :=
  ["cdn.discordapp.com"; "media.discordapp.net";
   "images-ext-1.discordapp.net"; "images-ext-2.discordapp.net"].

(** The two fields read from a parsed [URL]. *)
Record URL : Type := {
  protocol : string;
  hostname : string;
}.

(** What a [catch] receives: an [Error] with its name and message, or
    something else. *)
Inductive thrown : Type :=
| ErrorNamed (name message : string)
| NotAnError.

(** [new Error(message)] *)
Definition Error (message : string) : thrown := ErrorNamed "Error" message.

(** One [reader.read()] before the stream is done. *)
Inductive read : Type :=
| Chunk (value : list Byte.byte)
| ReadThrows (e : thrown).

(** A [fetch] response as the function reads it: headers are [None] when
    absent, [body] is [None] when there is no reader. *)
Record Response : Type := {
  ok : bool;
  status : Z;
  statusText : string;
  contentLength : option string;
  contentType : option string;
  body : option (list read);
}.

Section Download.
(** The platform and library calls: [new URL] ([None] when it throws),
    [fetch], [parseInt] and [fileTypeFromBuffer] (its [mime]). *)
Variable parseURL : string -> option URL.
Variable fetch : string -> thrown + Response.
Variable parseInt : string -> JS.num.
Variable fileTypeFromBuffer : list Byte.byte -> option string.

Definition isValidDiscordUrl (urlString : string) : bool :=
  match parseURL urlString with
  | None => false
  | Some url =>
      if negb (String.eqb (protocol url) "https:") then false
      else
        existsb (fun domain =>
                   String.eqb (hostname url) domain
                   || Str.endsWith (hostname url) ("." +:+ domain))
                ALLOWED_DOMAINS
  end.

(** [isValidImageBuffer(buffer).valid] *)
Definition isValidImageBuffer (buffer : list Byte.byte) : bool :=
  match fileTypeFromBuffer buffer with
  | None => false
  | Some mime => Str.includes ALLOWED_MIME_TYPES mime
  end.

(** The [while (true)] loop over the reads that are left; [chunks] is
    kept as the bytes it will be concatenated to. *)
Fixpoint read_all (reads : list read) (chunks : list Byte.byte)
    (totalSize : Z) : thrown + list Byte.byte :=
  match reads with
  | [] => inr chunks
  | ReadThrows e :: _ => inl e
  | Chunk value :: rest =>
      let totalSize := totalSize + JS.len value in
      if totalSize >? MAX_FILE_SIZE then
        inl (Error ("File exceeds maximum size of "
                      +:+ JS.show MAX_FILE_SIZE +:+ " bytes"))
      else read_all rest (chunks ++ value) totalSize
  end.

(** The body of the [try]. *)
Definition download (url : string) : thrown + list Byte.byte :=
  match fetch url with
  | inl e => inl e
  | inr response =>
      if negb (ok response) then
        inl (Error ("Download failed: " +:+ JS.show (status response)
                      +:+ " " +:+ statusText response))
      else if
        match CommandLogger.present (contentLength response) with
        | Some text => JS.gt (parseInt text) (JS.Fin (inject_Z MAX_FILE_SIZE))
        | None => false
        end
      then
        inl (Error ("File too large: "
                      +:+ default "" (contentLength response)
                      +:+ " bytes (max: " +:+ JS.show MAX_FILE_SIZE
                      +:+ " bytes)"))
      else if
        match CommandLogger.present (contentType response) with
        | Some text => negb (Str.includes ALLOWED_MIME_TYPES text)
        | None => false
        end
      then
        inl (Error ("Invalid content type: "
                      +:+ default "" (contentType response)
                      +:+ ". Only images are allowed."))
      else
        match body response with
        | None => inl (Error "Unable to read response body")
        | Some reads =>
            match read_all reads [] 0 with
            | inl e => inl e
            | inr buffer =>
                if negb (isValidImageBuffer buffer)
                then inl (Error "File is not a valid image (invalid file signature)")
                else inr buffer
            end
        end
  end.

(** [downloadAndValidateImage]: [inl] is the message of the error it
    throws. *)
Definition downloadAndValidateImage (url : string) : string + list Byte.byte :=
  if negb (isValidDiscordUrl url)
  then inl "Invalid or untrusted URL. Only Discord CDN URLs are allowed."
  else
    match download url with
    | inr buffer => inr buffer
    | inl (ErrorNamed name message) =>
        if String.eqb name "AbortError" then inl "Download timed out"
        else inl message
    | inl NotAnError => inl "Failed to download image"
    end.
End Download.

(** The bytes of the chunks of a stream, in order. *)
Definition stream_bytes (reads : list read) : list Byte.byte :=
  flat_map (fun r => match r with Chunk value => value | ReadThrows _ => [] end)
           reads.

End SolveCommand.

(** ** Results of a later part of a buffer *)

Module Later.

(** The result [r] as it reads when [n] positions come before it. *)
Definition shifted {T : Type} (n : Z) (r : DecodedResult T) : DecodedResult T :=
  mkResult (value r) (confidence r) (n + position r).

End Later.

(** * Proofs *)

(** ** Comparisons *)

Lemma Qltb_lt (a b : Q) : JS.Qltb a b = true <-> (a < b)%Q.
Proof.
  unfold JS.Qltb. rewrite negb_true_iff, <- not_true_iff_false, Qle_bool_iff.
  split; [apply Qnot_le_lt | apply Qlt_not_le].
Qed.

Lemma Qltb_ge (a b : Q) : JS.Qltb a b = false <-> (b <= a)%Q.
Proof.
  unfold JS.Qltb. rewrite negb_false_iff. apply Qle_bool_iff.
Qed.

Lemma ge_Fin (a b : Q) : JS.ge (JS.Fin a) (JS.Fin b) = Qle_bool b a.
Proof. unfold JS.ge, JS.lt, JS.Qltb. apply negb_involutive. Qed.

Lemma gt_trans_Fin (v m : Q) (acc : JS.num) :
  JS.gt (JS.Fin v) acc = true -> (v < m)%Q -> JS.gt (JS.Fin m) acc = true.
Proof.
  destruct acc as [| |a|]; cbn; try done.
  rewrite !Qltb_lt. intros. by apply Qlt_trans with v.
Qed.

Lemma gt_le_Fin (v m : Q) (acc : JS.num) :
  JS.gt (JS.Fin v) acc = false -> (m <= v)%Q -> JS.gt (JS.Fin m) acc = false.
Proof.
  destruct acc as [| |a|]; cbn; try done.
  rewrite !Qltb_ge. intros. by apply Qle_trans with v.
Qed.

(** ** Array reads *)

Lemma get_nat {A : Type} (l : list A) (n : nat) : JS.get l (Z.of_nat n) = l !! n.
Proof.
  unfold JS.get. destruct (Z.ltb_spec (Z.of_nat n) 0); [lia|].
  by rewrite Nat2Z.id.
Qed.

Lemma get_beyond {A : Type} (l : list A) (i : Z) : JS.len l <= i -> JS.get l i = None.
Proof.
  intros. unfold JS.get, JS.len in *. destruct (Z.ltb_spec i 0); [done|].
  apply lookup_ge_None. lia.
Qed.

(** A chunk that lies inside the array splits it in three. *)
Lemma chunk_split (array : list Q) (size p : nat) :
  ((p + 1) * size <= length array)%nat ->
  array = take (p * size) array ++ Spec.chunk array size p
            ++ drop ((p + 1) * size) array
  /\ length (take (p * size) array) = (p * size)%nat
  /\ length (Spec.chunk array size p) = size.
Proof.
  intros Hle. unfold Spec.chunk. split_and!.
  - rewrite <- (take_drop (p * size) array) at 1. f_equal.
    rewrite <- (take_drop size (drop (p * size) array)) at 1. f_equal.
    rewrite drop_drop. f_equal. lia.
  - rewrite length_take. lia.
  - rewrite length_take, length_drop. lia.
Qed.

(** ** The inner scan of the one-hot decoder finds the first maximum *)

Lemma argmax_None (values : list Q) : Spec.argmax values = None -> values = [].
Proof.
  destruct values as [|v rest]; [done|]. cbn.
  by destruct (Spec.argmax rest) as [[i m]|]; [destruct (JS.Qltb v m)|].
Qed.

Lemma argmax_first_max (values : list Q) (i : nat) (m : Q) :
  Spec.argmax values = Some (i, m) -> Spec.first_max values i m.
Proof.
  revert i m. induction values as [|v rest IH]; intros i m; cbn; [done|].
  destruct (Spec.argmax rest) as [[i' m']|] eqn:Hrest.
  - specialize (IH _ _ eq_refl). destruct IH as (Hi & Hmax & Hfirst).
    destruct (JS.Qltb v m') eqn:Hlt; intros [= <- <-].
    + apply Qltb_lt in Hlt. split_and!; [done| |].
      * intros [|j] w; cbn; [intros [= <-]; by apply Qlt_le_weak | apply Hmax].
      * intros [|j] w; cbn; [by intros [= <-] |].
        intros Hw Hj. apply (Hfirst j w Hw). lia.
    + apply Qltb_ge in Hlt. split_and!; [done| |intros; lia].
      intros [|j] w; cbn; [intros [= <-]; apply Qle_refl |].
      intros Hw. apply Qle_trans with m'; [by eapply Hmax | done].
  - intros [= <- <-]. apply argmax_None in Hrest as ->.
    split_and!; [done| |intros; lia].
    intros [|j] w; cbn; [intros [= <-]; apply Qle_refl | done].
Qed.

Lemma argmax_nonempty (values : list Q) :
  values <> [] -> exists i m, Spec.argmax values = Some (i, m).
Proof.
  destruct values as [|v rest]; [done|]. intros _. cbn.
  destruct (Spec.argmax rest) as [[i m]|]; [destruct (JS.Qltb v m)|]; eauto.
Qed.

(** The scan over a run of values that lies inside the array, from any
    running maximum. *)
Lemma scan_argmax (array : list Q) (values : list Q) :
  forall (front back : list Q) (startIndex offset : Z) (acc : JS.num) (k : Z),
    array = front ++ values ++ back ->
    startIndex + offset = JS.len front ->
    Onehot.scan array startIndex (length values) offset acc k =
      match Spec.argmax values with
      | Some (i, m) =>
          if JS.gt (JS.Fin m) acc then (JS.Fin m, offset + Z.of_nat i) else (acc, k)
      | None => (acc, k)
      end.
Proof.
  induction values as [|v rest IH]; intros front back startIndex offset acc k Harr Hoff;
    [done|].
  cbn [length Onehot.scan Spec.argmax].
  assert (JS.get array (startIndex + offset) = Some v) as ->.
  { rewrite Hoff. unfold JS.len. rewrite get_nat, Harr.
    by rewrite lookup_app_r, Nat.sub_diag by lia. }
  assert (forall acc' k',
    Onehot.scan array startIndex (length rest) (offset + 1) acc' k' =
      match Spec.argmax rest with
      | Some (i, m) =>
          if JS.gt (JS.Fin m) acc' then (JS.Fin m, offset + 1 + Z.of_nat i)
          else (acc', k')
      | None => (acc', k')
      end) as Hrest.
  { intros. apply (IH (front ++ [v]) back).
    - by rewrite Harr, <- app_assoc.
    - unfold JS.len in *. rewrite length_app. cbn. lia. }
  rewrite !Hrest. clear IH Hrest.
  destruct (Spec.argmax rest) as [[i m]|].
  - destruct (JS.gt (JS.Fin v) acc) eqn:Hv; destruct (JS.Qltb v m) eqn:Hm.
    + cbn [JS.gt JS.lt] in *. rewrite Hm.
      apply Qltb_lt in Hm. rewrite (gt_trans_Fin v m acc Hv Hm).
      f_equal. lia.
    + cbn [JS.gt JS.lt]. rewrite Hm, Hv. f_equal. lia.
    + destruct (JS.gt (JS.Fin m) acc); [f_equal; lia | done].
    + apply Qltb_ge in Hm. by rewrite (gt_le_Fin v m acc Hv Hm), Hv.
  - destruct (JS.gt (JS.Fin v) acc); [f_equal; lia | done].
Qed.

(** ** The loop over positions *)

Lemma decode_position_spec (array : list Q) (depth : Z) (decoder : Z -> string)
    (minConfidence : Q) (p : nat) (result : list (DecodedResult string)) :
  0 < depth ->
  ((p + 1) * Z.to_nat depth <= length array)%nat ->
  Onehot.decode_position array depth decoder minConfidence (Z.of_nat p) result =
    result ++ option_list
      (Spec.onehot_position decoder minConfidence p
         (Spec.chunk array (Z.to_nat depth) p)).
Proof.
  intros Hdepth Hin.
  destruct (chunk_split array (Z.to_nat depth) p Hin) as (Harr & Hfront & Hlen).
  unfold Onehot.decode_position, Spec.onehot_position.
  rewrite <- Hlen at 1.
  rewrite (scan_argmax array _ _ _ _ 0 JS.NegInf (-1) Harr)
    by (unfold JS.len; rewrite Hfront, Nat2Z.inj_mul, Z2Nat.id; lia).
  destruct (Spec.argmax _) as [[i m]|]; cbn [JS.gt JS.lt].
  - rewrite ge_Fin. destruct (Z.eqb_spec (0 + Z.of_nat i) (-1)); [lia|].
    rewrite andb_true_r, Z.add_0_l.
    destruct (Qle_bool minConfidence m); cbn; by rewrite ?app_nil_r.
  - cbn. by rewrite app_nil_r.
Qed.

Lemma positions_spec (array : list Q) (depth : Z) (decoder : Z -> string)
    (minConfidence : Q) (n : nat) :
  0 < depth ->
  forall (p : nat) (result : list (DecodedResult string)),
    ((p + n) * Z.to_nat depth <= length array)%nat ->
    Onehot.positions array depth decoder minConfidence n (Z.of_nat p) result =
      result ++ omap (fun q => Spec.onehot_position decoder minConfidence q
                                 (Spec.chunk array (Z.to_nat depth) q))
                     (seq p n).
Proof.
  intros Hdepth. induction n as [|n IH]; intros p result Hin; cbn [Onehot.positions seq omap].
  - by rewrite app_nil_r.
  - rewrite decode_position_spec by (done || nia).
    replace (Z.of_nat p + 1) with (Z.of_nat (S p)) by lia.
    rewrite IH by nia. rewrite <- app_assoc. f_equal.
    change (omap ?f (p :: ?l)) with (list_omap _ _ f (p :: l)). cbn [list_omap].
    by destruct (Spec.onehot_position _ _ _ _).
Qed.

(** When neither guard fires, the decoder returns what the specification
    describes. *)
Lemma decode_checked_spec (array : list Q) (depth : Z) (decoder : Z -> string)
    (minConfidence : Q) :
  array <> [] ->
  JS.rem (JS.len array) depth = Some 0 ->
  Onehot.decode_checked array depth decoder minConfidence =
    inr (Spec.onehot array depth decoder minConfidence).
Proof.
  intros Hne Hrem. unfold Onehot.decode_checked, Spec.onehot.
  assert (0 < JS.len array) as Hlen.
  { unfold JS.len. destruct array; [done|]. cbn [length]. lia. }
  destruct (Z.eqb_spec (JS.len array) 0); [lia|].
  rewrite Hrem. cbn [JS.nonzero Z.eqb negb]. f_equal.
  unfold JS.rem in Hrem. destruct (Z.eqb_spec depth 0); [done|].
  injection Hrem as Hrem.
  pose proof (Z.quot_rem' (JS.len array) depth) as Hquot.
  pose proof (Z.div_mod (JS.len array) depth ltac:(done)) as Hdiv.
  destruct (Z.lt_total depth 0) as [Hneg|[?|Hpos]]; [|done|].
  - pose proof (Z.mod_neg_bound (JS.len array) depth Hneg).
    replace (Z.to_nat (JS.len array ÷ depth)) with O by nia.
    by replace (Z.to_nat (JS.len array / depth)) with O by nia.
  - rewrite Z.quot_div_nonneg by lia.
    rewrite Z.rem_mod_nonneg in Hrem by lia.
    change 0 with (Z.of_nat 0) at 1. rewrite positions_spec; [done|done|].
    unfold JS.len in *. nia.
Qed.

(** ** Lists built position by position *)

Lemma omap_cons {A B : Type} (f : A -> option B) (a : A) (l : list A) :
  omap f (a :: l) = option_list (f a) ++ omap f l.
Proof. change (omap f (a :: l)) with (list_omap _ _ f (a :: l)). cbn. by destruct (f a). Qed.

Lemma omap_length_le {A B : Type} (f : A -> option B) (l : list A) :
  (length (omap f l) <= length l)%nat.
Proof.
  induction l as [|a l IH]; [done|]. rewrite omap_cons, length_app.
  destruct (f a); cbn in *; lia.
Qed.

Lemma omap_sublist {A B : Type} (f g : A -> option B) (l : list A) :
  (forall a r, g a = Some r -> f a = Some r) ->
  omap g l `sublist_of` omap f l.
Proof.
  intros Hfg. induction l as [|a l IH]; [done|]. rewrite !omap_cons.
  destruct (g a) as [r|] eqn:Hg.
  - rewrite (Hfg _ _ Hg). cbn. by constructor.
  - destruct (f a); cbn; [by constructor | done].
Qed.

(** Results taken in order from positions [start], [start + 1], ... stay
    inside that range and increase strictly. *)
Lemma omap_seq_positions {T : Type} (f : nat -> option (DecodedResult T)) :
  (forall p r, f p = Some r -> position r = Z.of_nat p) ->
  forall (n start : nat),
    (forall r, r ∈ omap f (seq start n) ->
               Z.of_nat start <= position r < Z.of_nat (start + n))
    /\ Spec.increasing (omap f (seq start n)).
Proof.
  intros Hf. induction n as [|n IH]; intros start.
  - split; [by intros r ?%elem_of_nil | by intros i j r1 r2 ?].
  - destruct (IH (S start)) as [Hrange Hinc]. cbn [seq]. rewrite omap_cons.
    split.
    + intros r [Hr|Hr]%elem_of_app.
      * destruct (f start) as [r'|] eqn:Hstart; cbn in Hr; [|by apply elem_of_nil in Hr].
        apply list_elem_of_singleton in Hr as ->. rewrite (Hf _ _ Hstart). lia.
      * specialize (Hrange r Hr). lia.
    + destruct (f start) as [r'|] eqn:Hstart; cbn [option_list app]; [|done].
      intros [|i] [|j] r1 r2 H1 H2 Hij; try lia; cbn in H1, H2.
      * injection H1 as <-. rewrite (Hf _ _ Hstart).
        assert (r2 ∈ omap f (seq (S start) n)) as Hin
          by (apply list_elem_of_lookup; eauto).
        specialize (Hrange r2 Hin). lia.
      * apply (Hinc i j r1 r2 H1 H2). lia.
Qed.

Lemma onehot_position_at (decoder : Z -> string) (minConfidence : Q) (p : nat)
    (block : list Q) (r : DecodedResult string) :
  Spec.onehot_position decoder minConfidence p block = Some r ->
  position r = Z.of_nat p.
Proof.
  unfold Spec.onehot_position.
  destruct (Spec.argmax block) as [[i m]|]; [|done].
  destruct (Qle_bool minConfidence m); [|done]. by intros [= <-].
Qed.

(** ** The one-hot decoder: statements of the specification *)

(** C1.  On a non-empty buffer whose length the depth divides, both one-hot
    decoders return, block by block in order, the result of the first index
    attaining the block's maximum, kept exactly when that maximum is at
    least [minConfidence] and carrying it as confidence; on the block
    [0.5, 0.5, 0.1] the tie goes to index 0. *)
Theorem onehot_decode_first_max (array : list Q) (depth : Z)
    (decoder : Z -> string) (minConfidence : option Q)
    (defaultConfig : HuntbotDecoder.HuntbotDecoderConfig) :
  array <> [] ->
  JS.rem (JS.len array) depth = Some 0 ->
  Onehot.onehotDecode array
      {| Onehot.depth := depth; Onehot.decoder := decoder;
         Onehot.minConfidence := minConfidence |}
    = inr (Spec.onehot array depth decoder (default 0%Q minConfidence))
  /\ HuntbotDecoder.decode defaultConfig array
       (Some {| HuntbotDecoder.depth := depth;
                HuntbotDecoder.minConfidence := Some (default 0%Q minConfidence) |})
     = inr (Spec.onehot array depth HuntbotDecoder.decodeChar
              (default 0%Q minConfidence))
  /\ (forall block i m,
        Spec.argmax block = Some (i, m) <-> Spec.first_max block i m)
  /\ Onehot.onehotDecode [0.5; 0.5; 0.1]%Q
       {| Onehot.depth := 3; Onehot.decoder := Onehot.lowercaseDecoder;
          Onehot.minConfidence := None |}
     = inr [mkResult "a" (JS.Fin 0.5%Q) 0].
Proof.
  intros Hne Hrem. split_and!.
  - by apply decode_checked_spec.
  - unfold HuntbotDecoder.decode. cbn. by apply decode_checked_spec.
  - intros block i m. split; [apply argmax_first_max|].
    intros Hfirst. destruct (argmax_nonempty block) as (i' & m' & Harg).
    { destruct Hfirst as [Hi _]. by destruct block. }
    rewrite Harg. apply argmax_first_max in Harg.
    destruct Hfirst as (Hi & Hmax & Hfirst), Harg as (Hi' & Hmax' & Hfirst').
    destruct (Nat.lt_total i i') as [Hlt|[->|Hlt]].
    + pose proof (Hfirst' _ _ Hi Hlt). pose proof (Hmax _ _ Hi').
      exfalso. by eapply Qlt_not_le.
    + by simplify_eq.
    + pose proof (Hfirst _ _ Hi' Hlt). pose proof (Hmax' _ _ Hi).
      exfalso. by eapply Qlt_not_le.
  - reflexivity.
Qed.

Lemma onehot_decode_first_max_witness :
  Onehot.onehotDecode [0.1; 0.7; 0.2; 0.4; 0.4; 0.3]%Q
      {| Onehot.depth := 3; Onehot.decoder := Onehot.lowercaseDecoder;
         Onehot.minConfidence := Some 0.5%Q |}
    = inr (Spec.onehot [0.1; 0.7; 0.2; 0.4; 0.4; 0.3]%Q 3
             Onehot.lowercaseDecoder 0.5%Q).
Proof.
  apply (onehot_decode_first_max [0.1; 0.7; 0.2; 0.4; 0.4; 0.3]%Q 3
           Onehot.lowercaseDecoder (Some 0.5%Q) (HuntbotDecoder.new None));
    [discriminate | reflexivity].
Defined.

(** C5.  Both one-hot decoders fail on an empty buffer, and on a non-empty
    buffer whose length the depth does not divide they fail with a message
    that spells out the length and the depth (10 and 3 in the example); a
    failure carries no result list. *)
Theorem onehot_decode_errors (array : list Q) (depth : Z)
    (decoder : Z -> string) (minConfidence : option Q)
    (defaultConfig : HuntbotDecoder.HuntbotDecoderConfig) :
  let options := {| Onehot.depth := depth; Onehot.decoder := decoder;
                    Onehot.minConfidence := minConfidence |} in
  let config := Some {| HuntbotDecoder.depth := depth;
                        HuntbotDecoder.minConfidence := minConfidence |} in
  (array = [] ->
     Onehot.onehotDecode array options = inl "Input array cannot be empty"
     /\ HuntbotDecoder.decode defaultConfig array config
        = inl "Input array cannot be empty")
  /\ (array <> [] -> JS.rem (JS.len array) depth <> Some 0 ->
        let message :=
          "Array length (" +:+ JS.show (JS.len array)
            +:+ ") must be divisible by depth (" +:+ JS.show depth +:+ ")" in
        Onehot.onehotDecode array options = inl message
        /\ HuntbotDecoder.decode defaultConfig array config = inl message)
  /\ Onehot.onehotDecode (replicate 10 0.5%Q)
       {| Onehot.depth := 3; Onehot.decoder := decoder;
          Onehot.minConfidence := minConfidence |}
     = inl "Array length (10) must be divisible by depth (3)".
Proof.
  cbn zeta. split_and!.
  - intros Hnil. by subst array.
  - intros Hne Hrem.
    assert ((JS.len array =? 0) = false) as Hlen.
    { apply Z.eqb_neq. unfold JS.len. destruct array; [done|]. cbn [length]. lia. }
    assert (JS.nonzero (JS.rem (JS.len array) depth) = true) as Hnz.
    { destruct (JS.rem _ _) as [z|]; [|done]. cbn.
      destruct (Z.eqb_spec z 0); [by subst|done]. }
    unfold Onehot.onehotDecode, HuntbotDecoder.decode, Onehot.decode_checked.
    cbn [Onehot.depth HuntbotDecoder.depth HuntbotDecoder.merge].
    by rewrite Hlen, Hnz.
  - reflexivity.
Qed.

Lemma onehot_decode_errors_witness :
  Onehot.onehotDecode [0.2; 0.8; 0.3; 0.6; 0.1]%Q
    {| Onehot.depth := 2; Onehot.decoder := Onehot.lowercaseDecoder;
       Onehot.minConfidence := None |}
  = inl "Array length (5) must be divisible by depth (2)".
Proof.
  apply (onehot_decode_errors [0.2; 0.8; 0.3; 0.6; 0.1]%Q 2
           Onehot.lowercaseDecoder None (HuntbotDecoder.new None));
    [discriminate | vm_compute; discriminate].
Defined.

(** C6.  For a positive depth that divides the buffer length [L], a
    one-hot decoder that returns gives at most [L / depth] results, each at
    a position below [L / depth], at strictly increasing positions; it
    fails to return only on the empty buffer. *)
Theorem onehot_positions_bounded_increasing (array : list Q) (depth : Z)
    (decoder : Z -> string) (minConfidence : option Q)
    (defaultConfig : HuntbotDecoder.HuntbotDecoderConfig)
    (out : string + list (DecodedResult string)) :
  0 < depth ->
  JS.rem (JS.len array) depth = Some 0 ->
  out = Onehot.onehotDecode array
          {| Onehot.depth := depth; Onehot.decoder := decoder;
             Onehot.minConfidence := minConfidence |}
  \/ out = HuntbotDecoder.decode defaultConfig array
             (Some {| HuntbotDecoder.depth := depth;
                      HuntbotDecoder.minConfidence := minConfidence |}) ->
  match out with
  | inr results =>
      JS.len results <= JS.len array / depth
      /\ (forall r, r ∈ results -> 0 <= position r < JS.len array / depth)
      /\ Spec.increasing results
  | inl _ => array = []
  end.
Proof.
  intros Hdepth Hrem Hout.
  assert (exists decoder' minConfidence',
            out = Onehot.decode_checked array depth decoder' minConfidence')
    as (decoder' & minConfidence' & ->).
  { destruct Hout as [->| ->]; [by eexists _, _|].
    unfold HuntbotDecoder.decode. by eexists _, _. }
  destruct array as [|v array]; [done|].
  rewrite decode_checked_spec by done. unfold Spec.onehot.
  set (f := fun p => Spec.onehot_position decoder' minConfidence' p _).
  set (n := Z.to_nat (JS.len (v :: array) / depth)).
  assert (0 <= JS.len (v :: array) / depth) by (apply Z.div_pos; unfold JS.len; lia).
  destruct (omap_seq_positions f (fun p r => onehot_position_at _ _ p _ r) n 0%nat)
    as [Hrange Hinc].
  split_and!; [|intros r Hr; specialize (Hrange r Hr); lia|done].
  pose proof (omap_length_le f (seq 0 n)) as Hle.
  rewrite length_seq in Hle. unfold JS.len at 1. lia.
Qed.

Lemma onehot_positions_bounded_increasing_witness :
  match Onehot.onehotDecode [0.1; 0.7; 0.2; 0.4; 0.4; 0.3]%Q
          {| Onehot.depth := 3; Onehot.decoder := Onehot.lowercaseDecoder;
             Onehot.minConfidence := Some 0.5%Q |} with
  | inr results =>
      JS.len results <= 6 / 3
      /\ (forall r, r ∈ results -> 0 <= position r < 6 / 3)
      /\ Spec.increasing results
  | inl _ => [0.1; 0.7; 0.2; 0.4; 0.4; 0.3]%Q = []
  end.
Proof.
  apply (onehot_positions_bounded_increasing [0.1; 0.7; 0.2; 0.4; 0.4; 0.3]%Q 3
           Onehot.lowercaseDecoder (Some 0.5%Q) (HuntbotDecoder.new None));
    [lia | reflexivity | by left].
Defined.

(** ** The bounding-box decoder: its loops *)

Lemma turns_spec (length stride : Z) (j : nat) :
  0 <= length -> 0 < stride ->
  (Z.of_nat j * stride <? length) = (j <? Aux.turns length stride)%nat.
Proof.
  intros Hlen Hstride. unfold Aux.turns.
  pose proof (Z.div_mod (length + stride - 1) stride ltac:(lia)) as Hdiv.
  pose proof (Z.mod_pos_bound (length + stride - 1) stride Hstride) as Hmod.
  assert (0 <= (length + stride - 1) / stride) by (apply Z.div_pos; lia).
  destruct (Z.ltb_spec (Z.of_nat j * stride) length);
    destruct (Nat.ltb_spec j (Z.to_nat ((length + stride - 1) / stride)));
    try done; nia.
Qed.

Lemma turns_le (length stride : Z) :
  0 <= length -> 0 < stride -> (Aux.turns length stride <= Z.to_nat length)%nat.
Proof.
  intros Hlen Hstride. unfold Aux.turns.
  pose proof (Z.div_mod (length + stride - 1) stride ltac:(lia)) as Hdiv.
  pose proof (Z.mod_pos_bound (length + stride - 1) stride Hstride) as Hmod.
  assert (0 <= (length + stride - 1) / stride) by (apply Z.div_pos; lia).
  nia.
Qed.

Lemma stride_pos (config : YOLODecoder.YOLODecoderConfig) :
  0 < YOLODecoder.stride config.
Proof. unfold YOLODecoder.stride. lia. Qed.

(** The test [i < numBoxes] on the unrounded quotient. *)
Lemma numBoxes_test (array : list Q) (config : YOLODecoder.YOLODecoderConfig)
    (i : Z) :
  JS.Qltb (inject_Z i) (YOLODecoder.numBoxes array config)
  = (i * YOLODecoder.stride config <? JS.len array).
Proof.
  pose proof (stride_pos config) as Hs. unfold YOLODecoder.numBoxes.
  assert (0 < inject_Z (YOLODecoder.stride config))%Q as HsQ
    by (rewrite (Zlt_Qlt 0) in Hs; exact Hs).
  destruct (Z.ltb_spec (i * YOLODecoder.stride config) (JS.len array)) as [Hlt|Hge].
  - apply Qltb_lt. apply Qlt_shift_div_l; [done|].
    rewrite <- inject_Z_mult. by rewrite <- Zlt_Qlt.
  - apply Qltb_ge. apply Qle_shift_div_r; [done|].
    rewrite <- inject_Z_mult. by rewrite <- Zle_Qle.
Qed.

Lemma decode_box_app (array : list Q) (config : YOLODecoder.YOLODecoderConfig)
    (i : Z) (results : list (DecodedResult YOLODecoder.BoundingBox)) :
  YOLODecoder.decode_box array config i results
  = results ++ YOLODecoder.decode_box array config i [].
Proof.
  unfold YOLODecoder.decode_box.
  destruct (JS.lt _ _); [by rewrite app_nil_r|].
  destruct (YOLODecoder.best_class _ _ _ _ _ _) as [maxClassProb maxClassIdx].
  destruct (JS.ge _ _); [done | by rewrite app_nil_r].
Qed.

(** The loop over boxes runs [Aux.turns] times and then stops by its own
    test, whatever fuel is left. *)
Lemma boxes_unroll (array : list Q) (config : YOLODecoder.YOLODecoderConfig) :
  forall (n fuel i : nat) (results : list (DecodedResult YOLODecoder.BoundingBox)),
    (i + n = Aux.turns (JS.len array) (YOLODecoder.stride config))%nat ->
    (n < fuel)%nat ->
    YOLODecoder.boxes array config fuel (Z.of_nat i) results
    = Some (results ++
            flat_map (fun j => YOLODecoder.decode_box array config (Z.of_nat j) [])
                     (seq i n)).
Proof.
  pose proof (stride_pos config) as Hs.
  assert (0 <= JS.len array) as Hlen by (unfold JS.len; lia).
  induction n as [|n IH]; intros fuel i results Hturns Hfuel;
    (destruct fuel as [|fuel]; [lia|]); cbn [YOLODecoder.boxes seq flat_map];
    rewrite numBoxes_test, turns_spec by done.
  - destruct (Nat.ltb_spec i (Aux.turns (JS.len array) (YOLODecoder.stride config)));
      [lia|]. by rewrite app_nil_r.
  - destruct (Nat.ltb_spec i (Aux.turns (JS.len array) (YOLODecoder.stride config)));
      [|lia].
    replace (Z.of_nat i + 1) with (Z.of_nat (S i)) by lia.
    rewrite IH by lia. by rewrite decode_box_app, <- app_assoc.
Qed.

Lemma decode_unroll (defaultConfig : YOLODecoder.YOLODecoderConfig)
    (array : list Q) (config : option YOLODecoder.YOLODecoderConfig) :
  let finalConfig := YOLODecoder.merge defaultConfig config in
  YOLODecoder.decode defaultConfig array config
  = Some (flat_map
            (fun j => YOLODecoder.decode_box array finalConfig (Z.of_nat j) [])
            (seq 0 (Aux.turns (JS.len array) (YOLODecoder.stride finalConfig)))).
Proof.
  cbn zeta. unfold YOLODecoder.decode.
  set (finalConfig := YOLODecoder.merge defaultConfig config).
  pose proof (turns_le (JS.len array) (YOLODecoder.stride finalConfig)
                ltac:(unfold JS.len; lia) (stride_pos finalConfig)) as Hle.
  change 0 with (Z.of_nat 0).
  rewrite (boxes_unroll array finalConfig
             (Aux.turns (JS.len array) (YOLODecoder.stride finalConfig)));
    [done|done|].
  unfold JS.len in *. lia.
Qed.

(** ** Raising the threshold only removes results *)

Lemma lt_threshold_mono (a : JS.num) (m1 m2 : Q) :
  (m1 <= m2)%Q -> JS.lt a (JS.Fin m1) = true -> JS.lt a (JS.Fin m2) = true.
Proof.
  intros Hm. destruct a as [| |q|]; cbn; try done.
  rewrite !Qltb_lt. intros. by apply Qlt_le_trans with m1.
Qed.

Lemma ge_threshold_mono (a : JS.num) (m1 m2 : Q) :
  (m1 <= m2)%Q -> JS.ge a (JS.Fin m2) = true -> JS.ge a (JS.Fin m1) = true.
Proof.
  intros Hm. destruct a as [| |q|]; try done.
  rewrite !ge_Fin, !Qle_bool_iff. intros. by apply Qle_trans with m2.
Qed.

Lemma onehot_position_mono (decoder : Z -> string) (m1 m2 : Q) (p : nat)
    (block : list Q) (r : DecodedResult string) :
  (m1 <= m2)%Q ->
  Spec.onehot_position decoder m2 p block = Some r ->
  Spec.onehot_position decoder m1 p block = Some r.
Proof.
  intros Hm. unfold Spec.onehot_position.
  destruct (Spec.argmax block) as [[i m]|]; [|done].
  destruct (Qle_bool m2 m) eqn:H2; [|done]. intros <-.
  apply Qle_bool_iff in H2.
  assert (Qle_bool m1 m = true) as ->; [|done].
  apply Qle_bool_iff. by apply Qle_trans with m2.
Qed.

Lemma decode_checked_mono (array : list Q) (depth : Z) (decoder : Z -> string)
    (m1 m2 : Q) :
  (m1 <= m2)%Q ->
  match Onehot.decode_checked array depth decoder m1,
        Onehot.decode_checked array depth decoder m2 with
  | inr lower, inr higher => higher `sublist_of` lower
  | inl e1, inl e2 => e1 = e2
  | _, _ => False
  end.
Proof.
  intros Hm.
  destruct (decide (array = [])) as [->|Hne]; [done|].
  destruct (decide (JS.rem (JS.len array) depth = Some 0)) as [Hrem|Hrem].
  - rewrite !decode_checked_spec by done. apply omap_sublist.
    intros p r. by apply onehot_position_mono.
  - unfold Onehot.decode_checked.
    destruct (JS.len array =? 0); [done|].
    destruct (JS.rem (JS.len array) depth) as [z|]; cbn; [|done].
    destruct (Z.eqb_spec z 0); [by subst|done].
Qed.

Lemma decode_box_mono (array : list Q) (config : YOLODecoder.YOLODecoderConfig)
    (m1 m2 : Q) (i : Z) :
  (m1 <= m2)%Q ->
  YOLODecoder.decode_box array (Aux.with_minConfidence config m2) i []
  `sublist_of`
  YOLODecoder.decode_box array (Aux.with_minConfidence config m1) i [].
Proof.
  intros Hm. unfold YOLODecoder.decode_box.
  change (YOLODecoder.stride (Aux.with_minConfidence config m2))
    with (YOLODecoder.stride (Aux.with_minConfidence config m1)).
  cbn [Aux.with_minConfidence YOLODecoder.minConfidence
       YOLODecoder.numClasses YOLODecoder.classNames JS.to_num].
  set (objectness := JS.to_num (JS.get array _)).
  destruct (JS.lt objectness (JS.Fin m2)) eqn:H2; [apply sublist_nil_l|].
  destruct (JS.lt objectness (JS.Fin m1)) eqn:H1.
  { by rewrite (lt_threshold_mono _ _ _ Hm H1) in H2. }
  destruct (YOLODecoder.best_class _ _ _ _ _ _) as [maxClassProb maxClassIdx].
  destruct (JS.ge _ (JS.Fin m2)) eqn:Hge; [|apply sublist_nil_l].
  by rewrite (ge_threshold_mono _ _ _ Hm Hge).
Qed.

Lemma flat_map_sublist {A B : Type} (f g : A -> list B) (l : list A) :
  (forall a, g a `sublist_of` f a) -> flat_map g l `sublist_of` flat_map f l.
Proof.
  intros Hfg. induction l as [|a l IH]; [done|]. cbn. by apply sublist_app.
Qed.

(** C7.  For one buffer and two thresholds [m1 <= m2], each decoder behaves
    alike on both (the one-hot decoder fails on both with the same error,
    or returns on both) and returns no more results under [m2] than under
    [m1]. *)
Theorem minConfidence_monotonic (array : list Q) (depth : Z)
    (decoder : Z -> string) (config : YOLODecoder.YOLODecoderConfig)
    (m1 m2 : Q) :
  (m1 <= m2)%Q ->
  match Onehot.onehotDecode array
          {| Onehot.depth := depth; Onehot.decoder := decoder;
             Onehot.minConfidence := Some m1 |},
        Onehot.onehotDecode array
          {| Onehot.depth := depth; Onehot.decoder := decoder;
             Onehot.minConfidence := Some m2 |} with
  | inr lower, inr higher => (length higher <= length lower)%nat
  | inl e1, inl e2 => e1 = e2
  | _, _ => False
  end
  /\ match YOLODecoder.decode (YOLODecoder.new config) array
             (Some (Aux.with_minConfidence config m1)),
           YOLODecoder.decode (YOLODecoder.new config) array
             (Some (Aux.with_minConfidence config m2)) with
     | Some lower, Some higher => (length higher <= length lower)%nat
     | _, _ => False
     end.
Proof.
  intros Hm. split.
  - pose proof (decode_checked_mono array depth decoder m1 m2 Hm) as Hmono.
    change (Onehot.onehotDecode array
              {| Onehot.depth := depth; Onehot.decoder := decoder;
                 Onehot.minConfidence := Some m1 |})
      with (Onehot.decode_checked array depth decoder m1).
    change (Onehot.onehotDecode array
              {| Onehot.depth := depth; Onehot.decoder := decoder;
                 Onehot.minConfidence := Some m2 |})
      with (Onehot.decode_checked array depth decoder m2).
    destruct (Onehot.decode_checked array depth decoder m1),
             (Onehot.decode_checked array depth decoder m2); try done.
    by apply sublist_length.
  - rewrite !decode_unroll. apply sublist_length.
    change (YOLODecoder.stride (YOLODecoder.merge _ (Some (Aux.with_minConfidence config m2))))
      with (YOLODecoder.stride (YOLODecoder.merge (YOLODecoder.new config)
                                  (Some (Aux.with_minConfidence config m1)))).
    apply flat_map_sublist. intros j.
    apply (decode_box_mono array config m1 m2 (Z.of_nat j) Hm).
Qed.

Lemma minConfidence_monotonic_witness :
  match Onehot.onehotDecode [0.1; 0.7; 0.2; 0.4; 0.4; 0.3]%Q
          {| Onehot.depth := 3; Onehot.decoder := Onehot.lowercaseDecoder;
             Onehot.minConfidence := Some 0.25%Q |},
        Onehot.onehotDecode [0.1; 0.7; 0.2; 0.4; 0.4; 0.3]%Q
          {| Onehot.depth := 3; Onehot.decoder := Onehot.lowercaseDecoder;
             Onehot.minConfidence := Some 0.5%Q |} with
  | inr lower, inr higher => (length higher <= length lower)%nat
  | inl e1, inl e2 => e1 = e2
  | _, _ => False
  end
  /\ match YOLODecoder.decode
             (YOLODecoder.new YOLOModelService.defaultDecoderConfig)
             [0.1; 0.7; 0.2; 0.4; 0.4; 0.3]%Q
             (Some (Aux.with_minConfidence
                      YOLOModelService.defaultDecoderConfig 0.25%Q)),
           YOLODecoder.decode
             (YOLODecoder.new YOLOModelService.defaultDecoderConfig)
             [0.1; 0.7; 0.2; 0.4; 0.4; 0.3]%Q
             (Some (Aux.with_minConfidence
                      YOLOModelService.defaultDecoderConfig 0.5%Q)) with
     | Some lower, Some higher => (length higher <= length lower)%nat
     | _, _ => False
     end.
Proof.
  apply (minConfidence_monotonic [0.1; 0.7; 0.2; 0.4; 0.4; 0.3]%Q 3
           Onehot.lowercaseDecoder YOLOModelService.defaultDecoderConfig
           0.25%Q 0.5%Q).
  vm_compute. discriminate.
Defined.

(** ** The bounding-box decoder on whole records *)

Lemma best_class_scan (array : list Q) (offset : Z) (n : nat) :
  forall (c : Z) (acc : JS.num) (k : Z),
    YOLODecoder.best_class array offset n c acc k
    = Onehot.scan array (offset + 5) n c acc k.
Proof.
  induction n as [|n IH]; intros c acc k; cbn [YOLODecoder.best_class Onehot.scan];
    [done|].
  destruct (JS.get array (offset + 5 + c)) as [v|]; cbn [JS.to_num].
  - by rewrite !IH.
  - replace (JS.gt JS.NaN acc) with false by (by destruct acc). apply IH.
Qed.

Lemma chunk_get (array : list Q) (size j k : nat) :
  (k < size)%nat ->
  JS.get array (Z.of_nat j * Z.of_nat size + Z.of_nat k)
  = Spec.chunk array size j !! k.
Proof.
  intros Hk. unfold Spec.chunk.
  rewrite lookup_take_lt, lookup_drop by done.
  rewrite <- get_nat. f_equal. lia.
Qed.

Lemma decode_box_full (array : list Q) (config : YOLODecoder.YOLODecoderConfig)
    (m : Q) (j : nat) :
  (0 < YOLODecoder.numClasses config)%nat ->
  YOLODecoder.minConfidence config = Some m ->
  ((j + 1) * (5 + YOLODecoder.numClasses config) <= length array)%nat ->
  YOLODecoder.decode_box array config (Z.of_nat j) []
  = option_list
      (Spec.box_record (YOLODecoder.classNames config) m j
         (Spec.chunk array (5 + YOLODecoder.numClasses config) j)).
Proof.
  intros Hclasses Hmin Hin.
  set (size := (5 + YOLODecoder.numClasses config)%nat) in *.
  set (record := Spec.chunk array size j).
  destruct (chunk_split array size j Hin) as (Harr & Hfront & Hlen).
  fold record in Harr, Hlen.
  assert (YOLODecoder.stride config = Z.of_nat size) as Hstride
    by (unfold YOLODecoder.stride, size; lia).
  unfold YOLODecoder.decode_box, Spec.box_record. rewrite Hstride, Hmin.
  assert (JS.get array (Z.of_nat j * Z.of_nat size) = record !! 0%nat) as ->.
  { rewrite <- (Z.add_0_r (_ * _)). apply (chunk_get array size j 0). unfold size. lia. }
  assert (JS.get array (Z.of_nat j * Z.of_nat size + 1) = record !! 1%nat) as ->
    by (apply (chunk_get array size j 1); unfold size; lia).
  assert (JS.get array (Z.of_nat j * Z.of_nat size + 2) = record !! 2%nat) as ->
    by (apply (chunk_get array size j 2); unfold size; lia).
  assert (JS.get array (Z.of_nat j * Z.of_nat size + 3) = record !! 3%nat) as ->
    by (apply (chunk_get array size j 3); unfold size; lia).
  assert (JS.get array (Z.of_nat j * Z.of_nat size + 4) = record !! 4%nat) as ->
    by (apply (chunk_get array size j 4); unfold size; lia).
  destruct (lookup_lt_is_Some_2 record 4%nat) as [objectness Hobj];
    [rewrite Hlen; unfold size; lia|].
  rewrite Hobj. cbn [JS.to_num JS.lt].
  destruct (JS.Qltb objectness m); [done|].
  rewrite best_class_scan.
  assert (YOLODecoder.numClasses config = length (drop 5 record)) as Hvalues
    by (rewrite length_drop, Hlen; unfold size; lia).
  rewrite Hvalues at 1.
  rewrite (scan_argmax array (drop 5 record)
             (take (j * size) array ++ take 5 record)
             (drop ((j + 1) * size) array)).
  2: { rewrite <- app_assoc, (app_assoc (take 5 record)), take_drop. exact Harr. }
  2: { unfold JS.len. rewrite length_app, Hfront, length_take, Hlen.
       unfold size. lia. }
  destruct (argmax_nonempty (drop 5 record)) as (k & maxClassProb & Harg).
  { intros Hnil. rewrite Hnil in Hvalues. cbn in Hvalues. lia. }
  rewrite Harg. cbn [JS.gt JS.lt JS.mul]. rewrite ge_Fin, Z.add_0_l, get_nat.
  destruct (Qle_bool m (objectness * maxClassProb)); [|done].
  by destruct (YOLODecoder.classNames config !! k).
Qed.

(** Each turn of the loop adds at most one result, at its own index. *)
Lemma decode_box_head (array : list Q) (config : YOLODecoder.YOLODecoderConfig)
    (i : Z) :
  YOLODecoder.decode_box array config i []
  = option_list (head (YOLODecoder.decode_box array config i []))
  /\ (forall r, r ∈ YOLODecoder.decode_box array config i [] -> position r = i).
Proof.
  unfold YOLODecoder.decode_box.
  destruct (JS.lt _ _); [by split; [|intros r ?%elem_of_nil]|].
  destruct (YOLODecoder.best_class _ _ _ _ _ _) as [maxClassProb maxClassIdx].
  destruct (JS.ge _ _); (split; [done|]); cbn [app].
  - by intros r ->%list_elem_of_singleton.
  - by intros r ?%elem_of_nil.
Qed.

Lemma flat_map_omap {A B : Type} (f : A -> list B) (g : A -> option B) (l : list A) :
  (forall a, a ∈ l -> f a = option_list (g a)) -> flat_map f l = omap g l.
Proof.
  induction l as [|a l IH]; intros Hfg; [done|]. cbn [flat_map].
  rewrite omap_cons, Hfg by left. f_equal. apply IH. intros. apply Hfg. by right.
Qed.

Lemma decode_as_omap (defaultConfig : YOLODecoder.YOLODecoderConfig)
    (array : list Q) (config : option YOLODecoder.YOLODecoderConfig) :
  let finalConfig := YOLODecoder.merge defaultConfig config in
  YOLODecoder.decode defaultConfig array config
  = Some (omap (fun j => head (YOLODecoder.decode_box array finalConfig (Z.of_nat j) []))
               (seq 0 (Aux.turns (JS.len array) (YOLODecoder.stride finalConfig)))).
Proof.
  cbn zeta. rewrite decode_unroll. f_equal. apply flat_map_omap.
  intros j _. apply decode_box_head.
Qed.

Lemma head_decode_box_position (array : list Q)
    (config : YOLODecoder.YOLODecoderConfig) (j : nat)
    (r : DecodedResult YOLODecoder.BoundingBox) :
  head (YOLODecoder.decode_box array config (Z.of_nat j) []) = Some r ->
  position r = Z.of_nat j.
Proof.
  intros Hhead. apply (decode_box_head array config (Z.of_nat j)).
  destruct (YOLODecoder.decode_box array config (Z.of_nat j) []) as [|r' l]; [done|].
  injection Hhead as ->. by left.
Qed.

(** The turns of the loop: one per whole record, and one more when values
    are left over. *)
Lemma turns_whole_records (array : list Q) (size : nat) :
  (0 < size)%nat ->
  exists extra : nat,
    Aux.turns (JS.len array) (Z.of_nat size) = (length array / size + extra)%nat
    /\ (extra <= 1)%nat
    /\ ((length array) mod size = 0 -> extra = 0)%nat.
Proof.
  intros Hsize.
  set (whole := (length array / size)%nat).
  set (turns := Aux.turns (JS.len array) (Z.of_nat size)).
  pose proof (Nat.div_mod_eq (length array) size) as Hdiv. fold whole in Hdiv.
  pose proof (Nat.mod_upper_bound (length array) size ltac:(lia)) as Hmod.
  assert (forall j : nat, (j < turns)%nat <-> Z.of_nat j * Z.of_nat size < JS.len array)
    as Hturns.
  { intros j. unfold turns.
    pose proof (turns_spec (JS.len array) (Z.of_nat size) j
                  ltac:(unfold JS.len; lia) ltac:(lia)) as Hspec.
    destruct (Z.ltb_spec (Z.of_nat j * Z.of_nat size) (JS.len array));
      destruct (Nat.ltb_spec j (Aux.turns (JS.len array) (Z.of_nat size)));
      try done; lia. }
  unfold JS.len in Hturns.
  exists (turns - whole)%nat.
  assert (whole <= turns)%nat.
  { destruct (Nat.eq_dec whole 0%nat) as [|Hpos]; [lia|].
    assert (whole - 1 < turns)%nat; [|lia]. apply Hturns. nia. }
  assert (turns <= whole + 1)%nat.
  { destruct (Nat.le_gt_cases turns (whole + 1)) as [|Hgt]; [done|].
    apply Hturns in Hgt. nia. }
  split_and!; [lia|lia|].
  intros Hexact.
  destruct (Nat.le_gt_cases turns whole) as [|Hgt]; [lia|].
  apply Hturns in Hgt. nia.
Qed.

(** C2.  On every buffer the bounding-box decoder returns, in record order,
    what the specification says of each whole record: nothing when its
    objectness is below [minConfidence]; otherwise the first class of
    maximum probability, with confidence objectness times that
    probability, kept only when the product is at least [minConfidence].
    Values left over after the last whole record add at most one result,
    after all the others.  Objectness 0.9 with best class probability 0.8
    at index 2 and threshold 0.25 gives confidence 0.72 and the class name
    at index 2. *)
Theorem box_decode_records (array : list Q)
    (config : YOLODecoder.YOLODecoderConfig) :
  (0 < YOLODecoder.numClasses config)%nat ->
  let m := default 0.25%Q (YOLODecoder.minConfidence config) in
  let size := (5 + YOLODecoder.numClasses config)%nat in
  (exists results leftover,
      YOLODecoder.decode (YOLODecoder.new config) array None = Some results
      /\ results
         = Spec.boxes array (YOLODecoder.numClasses config)
             (YOLODecoder.classNames config) m ++ leftover
      /\ ((length array) mod size = 0 -> leftover = [])%nat
      /\ (forall r, r ∈ leftover -> position r = Z.of_nat (length array / size))
      /\ Spec.increasing results)
  /\ YOLODecoder.decode
       (YOLODecoder.new
          {| YOLODecoder.numClasses := 3;
             YOLODecoder.classNames := ["cat"; "dog"; "bird"];
             YOLODecoder.iouThreshold := None;
             YOLODecoder.minConfidence := Some 0.25%Q |})
       [10; 20; 30; 40; 0.9; 0.1; 0.05; 0.8]%Q None
     = Some [mkResult
               {| YOLODecoder.x := Some 10%Q; YOLODecoder.y := Some 20%Q;
                  YOLODecoder.width := Some 30%Q; YOLODecoder.height := Some 40%Q;
                  YOLODecoder.class := "bird";
                  YOLODecoder.confidence := JS.Fin 0.72%Q |}
               (JS.Fin 0.72%Q) 0].
Proof.
  intros Hclasses m size. split; [|reflexivity].
  set (finalConfig := YOLODecoder.new config).
  assert (YOLODecoder.stride finalConfig = Z.of_nat size) as Hstride
    by (unfold YOLODecoder.stride, size; cbn; lia).
  destruct (turns_whole_records array size ltac:(unfold size; lia))
    as (extra & Hturns & Hextra & Hexact).
  pose proof (decode_as_omap finalConfig array None) as Homap.
  pose proof (decode_unroll finalConfig array None) as Hflat.
  cbn zeta in Homap, Hflat. cbn [YOLODecoder.merge] in Homap, Hflat.
  rewrite Hstride, Hturns in Homap, Hflat.
  assert (flat_map
            (fun j => YOLODecoder.decode_box array finalConfig (Z.of_nat j) [])
            (seq 0 (length array / size + extra))
          = omap
              (fun j => head (YOLODecoder.decode_box array finalConfig (Z.of_nat j) []))
              (seq 0 (length array / size + extra))) as Heq by congruence.
  eexists _, (flat_map _ (seq (length array / size) extra)).
  split_and!.
  - exact Hflat.
  - rewrite seq_app, flat_map_app. f_equal. apply flat_map_omap.
    intros j Hj%list_elem_of_In%in_seq.
    apply (decode_box_full array finalConfig m j); [done|done|].
    change (5 + YOLODecoder.numClasses finalConfig)%nat with size.
    change (5 + YOLODecoder.numClasses config)%nat with size in Hj.
    pose proof (Nat.div_mod_eq (length array) size).
    assert ((j + 1) * size <= length array / size * size)%nat
      by (apply Nat.mul_le_mono_r; lia).
    lia.
  - intros Hzero. by rewrite (Hexact Hzero).
  - intros r.
    destruct extra as [|[|extra]]; [by intros ?%elem_of_nil| |lia].
    cbn [seq flat_map]. rewrite app_nil_r.
    apply (decode_box_head array finalConfig).
  - rewrite Heq.
    apply (omap_seq_positions _ (head_decode_box_position array finalConfig)).
Qed.

Lemma box_decode_records_witness :
  exists results leftover,
    YOLODecoder.decode
      (YOLODecoder.new
         {| YOLODecoder.numClasses := 2; YOLODecoder.classNames := ["cat"];
            YOLODecoder.iouThreshold := None; YOLODecoder.minConfidence := None |})
      [1; 2; 3; 4; 0.5; 0.3; 0.9; 5; 6; 7; 8; 0.6; 0.6; 0.6; 9; 9]%Q None
    = Some results
    /\ results
       = Spec.boxes [1; 2; 3; 4; 0.5; 0.3; 0.9; 5; 6; 7; 8; 0.6; 0.6; 0.6; 9; 9]%Q
           2 ["cat"] 0.25%Q ++ leftover
    /\ (16 mod 7 = 0 -> leftover = [])%nat
    /\ (forall r, r ∈ leftover -> position r = 2)
    /\ Spec.increasing results.
Proof.
  refine (proj1 (box_decode_records
                   [1; 2; 3; 4; 0.5; 0.3; 0.9; 5; 6; 7; 8; 0.6; 0.6; 0.6; 9; 9]%Q
                   {| YOLODecoder.numClasses := 2; YOLODecoder.classNames := ["cat"];
                      YOLODecoder.iouThreshold := None;
                      YOLODecoder.minConfidence := None |} _)).
  cbn. lia.
Defined.

(** ** The bounding-box decoder: class names and short buffers *)

Lemma decode_box_class (array : list Q) (config : YOLODecoder.YOLODecoderConfig)
    (i : Z) (r : DecodedResult YOLODecoder.BoundingBox) :
  r ∈ YOLODecoder.decode_box array config i [] ->
  let maxClassIdx :=
    snd (YOLODecoder.best_class array (i * YOLODecoder.stride config)
           (YOLODecoder.numClasses config) 0 JS.NegInf (-1)) in
  position r = i
  /\ YOLODecoder.class (value r)
     = match JS.get (YOLODecoder.classNames config) maxClassIdx with
       | Some name => name
       | None => "class_" +:+ JS.show maxClassIdx
       end.
Proof.
  unfold YOLODecoder.decode_box.
  destruct (JS.lt _ _); [by intros ?%elem_of_nil|].
  destruct (YOLODecoder.best_class _ _ _ _ _ _) as [maxClassProb maxClassIdx].
  destruct (JS.ge _ _); [|by intros ?%elem_of_nil].
  by intros ->%list_elem_of_singleton.
Qed.

(** C10.  Decoding always returns, and a result whose selected class index
    has no entry in [classNames] carries the class ["class_"] followed by
    that index; under the detector's default configuration, whose
    [classNames] is empty, that is every result. *)
Theorem box_class_fallback (defaultConfig : YOLODecoder.YOLODecoderConfig)
    (array : list Q) (config : option YOLODecoder.YOLODecoderConfig) :
  let finalConfig := YOLODecoder.merge defaultConfig config in
  let selected (r : DecodedResult YOLODecoder.BoundingBox) : Z :=
    snd (YOLODecoder.best_class array (position r * YOLODecoder.stride finalConfig)
           (YOLODecoder.numClasses finalConfig) 0 JS.NegInf (-1)) in
  exists results,
    YOLODecoder.decode defaultConfig array config = Some results
    /\ (forall r, r ∈ results ->
          JS.get (YOLODecoder.classNames finalConfig) (selected r) = None ->
          YOLODecoder.class (value r) = "class_" +:+ JS.show (selected r))
    /\ (defaultConfig = YOLODecoder.new YOLOModelService.defaultDecoderConfig ->
        config = None ->
        forall r, r ∈ results ->
          YOLODecoder.class (value r) = "class_" +:+ JS.show (selected r)).
Proof.
  intros finalConfig selected. rewrite decode_unroll. fold finalConfig.
  eexists. split; [done|].
  assert (forall r,
    r ∈ flat_map (fun j => YOLODecoder.decode_box array finalConfig (Z.of_nat j) [])
          (seq 0 (Aux.turns (JS.len array) (YOLODecoder.stride finalConfig))) ->
    YOLODecoder.class (value r)
    = match JS.get (YOLODecoder.classNames finalConfig) (selected r) with
      | Some name => name
      | None => "class_" +:+ JS.show (selected r)
      end) as Hclass.
  { intros r (j & _ & Hr%list_elem_of_In)%list_elem_of_In%in_flat_map.
    destruct (decode_box_class array finalConfig (Z.of_nat j) r Hr) as [Hpos Hcls].
    unfold selected. by rewrite Hpos. }
  split.
  - intros r Hr Hnone. by rewrite (Hclass r Hr), Hnone.
  - intros Hdefault Hconfig r Hr. rewrite (Hclass r Hr).
    assert (YOLODecoder.classNames finalConfig = []) as ->
      by (unfold finalConfig; by rewrite Hdefault, Hconfig).
    unfold JS.get. by destruct (selected r <? 0).
Qed.

Lemma box_class_fallback_witness :
  exists results,
    YOLODecoder.decode
      (YOLODecoder.new YOLOModelService.defaultDecoderConfig)
      ([10; 20; 30; 40; 0.9]%Q ++ replicate 79 0.05%Q ++ [0.8]%Q) None
    = Some results
    /\ forall r, r ∈ results ->
         YOLODecoder.class (value r)
         = "class_" +:+ JS.show
             (snd (YOLODecoder.best_class
                     ([10; 20; 30; 40; 0.9]%Q ++ replicate 79 0.05%Q ++ [0.8]%Q)
                     (position r * 85) 80 0 JS.NegInf (-1))).
Proof.
  destruct (box_class_fallback
              (YOLODecoder.new YOLOModelService.defaultDecoderConfig)
              ([10; 20; 30; 40; 0.9]%Q ++ replicate 79 0.05%Q ++ [0.8]%Q) None)
    as (results & Hdecode & _ & Hdefault).
  exists results. split; [exact Hdecode|].
  exact (Hdefault eq_refl eq_refl).
Defined.

Lemma best_class_beyond (array : list Q) (offset : Z) (n : nat) :
  forall (c : Z) (acc : JS.num) (k : Z),
    0 <= c -> JS.len array <= offset + 5 ->
    YOLODecoder.best_class array offset n c acc k = (acc, k).
Proof.
  induction n as [|n IH]; intros c acc k Hc Hlen; cbn [YOLODecoder.best_class];
    [done|].
  rewrite get_beyond by lia. cbn [JS.to_num].
  replace (JS.gt JS.NaN acc) with false by (by destruct acc).
  apply IH; lia.
Qed.

Lemma turns_short (length stride : Z) :
  0 <= length < stride ->
  Aux.turns length stride = if length =? 0 then O else 1%nat.
Proof.
  intros Hlen. unfold Aux.turns.
  destruct (Z.eqb_spec length 0) as [->|Hne].
  - rewrite Z.div_small by lia. done.
  - replace (length + stride - 1) with (1 * stride + (length - 1)) by lia.
    rewrite Z.div_add_l, Z.div_small by lia. done.
Qed.

Lemma decode_box_no_objectness (array : list Q)
    (config : YOLODecoder.YOLODecoderConfig) :
  JS.len array < 5 ->
  YOLODecoder.decode_box array config 0 [] = [].
Proof.
  intros Hlen. unfold YOLODecoder.decode_box.
  rewrite (get_beyond array (0 * YOLODecoder.stride config + 4)) by lia.
  cbn [JS.to_num].
  replace (JS.lt JS.NaN _) with false by done.
  destruct (YOLODecoder.best_class _ _ _ _ _ _) as [maxClassProb maxClassIdx].
  done.
Qed.

Lemma decode_box_no_class (array : list Q)
    (config : YOLODecoder.YOLODecoderConfig) (m : Q) :
  JS.len array = 5 ->
  YOLODecoder.minConfidence config = Some m ->
  (0 <= m)%Q ->
  YOLODecoder.decode_box array config 0 [] = [].
Proof.
  intros Hlen Hmin Hm. unfold YOLODecoder.decode_box. rewrite Hmin.
  rewrite best_class_beyond by lia.
  destruct (JS.get array (0 * YOLODecoder.stride config + 4)) as [objectness|];
    cbn [JS.to_num JS.lt JS.mul]; [|done].
  destruct (JS.Qltb objectness m) eqn:Hlt; [done|].
  apply Qltb_ge in Hlt.
  destruct (objectness ?= 0)%Q eqn:Hsign; [done| |done].
  apply Qlt_alt in Hsign. exfalso.
  apply (Qlt_irrefl 0). apply Qle_lt_trans with objectness; [|done].
  by apply Qle_trans with m.
Qed.

(** C9, as the code has it.  On a buffer shorter than one record the
    bounding-box decoder signals no error and returns at most one result,
    at position 0; it returns the empty list when the buffer holds fewer
    than 5 values, and when it holds exactly 5 and [minConfidence] is not
    negative. *)
Theorem box_decode_short_buffer (array : list Q)
    (config : YOLODecoder.YOLODecoderConfig) :
  JS.len array < YOLODecoder.stride (YOLODecoder.new config) ->
  let m := default 0.25%Q (YOLODecoder.minConfidence config) in
  exists results,
    YOLODecoder.decode (YOLODecoder.new config) array None = Some results
    /\ (length results <= 1)%nat
    /\ (forall r, r ∈ results -> position r = 0)
    /\ (JS.len array < 5 -> results = [])
    /\ (JS.len array = 5 -> (0 <= m)%Q -> results = []).
Proof.
  intros Hshort m. rewrite decode_unroll. cbn [YOLODecoder.merge].
  set (finalConfig := YOLODecoder.new config) in *.
  rewrite turns_short by (unfold JS.len in *; lia).
  eexists. split; [done|].
  destruct (JS.len array =? 0) eqn:Hempty; cbn [seq flat_map].
  - split_and!; [cbn; lia | by intros r ?%elem_of_nil | done | done].
  - rewrite app_nil_r. change (Z.of_nat 0) with 0.
    destruct (decode_box_head array finalConfig 0) as [Hhead Hpos].
    split_and!.
    + rewrite Hhead. destruct (head _); cbn; lia.
    + exact Hpos.
    + apply decode_box_no_objectness.
    + intros Hfive Hm. by apply (decode_box_no_class array finalConfig m).
Qed.

Lemma box_decode_short_buffer_witness :
  exists results,
    YOLODecoder.decode
      (YOLODecoder.new
         {| YOLODecoder.numClasses := 2; YOLODecoder.classNames := ["cat"; "dog"];
            YOLODecoder.iouThreshold := None; YOLODecoder.minConfidence := None |})
      [10; 20; 30; 0.9]%Q None
    = Some results
    /\ (length results <= 1)%nat
    /\ (forall r, r ∈ results -> position r = 0)
    /\ (4 < 5 -> results = [])
    /\ (4 = 5 -> (0 <= 0.25)%Q -> results = []).
Proof.
  apply (box_decode_short_buffer [10; 20; 30; 0.9]%Q
           {| YOLODecoder.numClasses := 2; YOLODecoder.classNames := ["cat"; "dog"];
              YOLODecoder.iouThreshold := None; YOLODecoder.minConfidence := None |}).
  vm_compute. reflexivity.
Defined.

(** C9, as stated, fails: six values are fewer than a record of seven
    (two classes), and the decoder still returns a result. *)
Lemma box_decode_short_buffer_counterexample :
  let config :=
    {| YOLODecoder.numClasses := 2; YOLODecoder.classNames := ["cat"; "dog"];
       YOLODecoder.iouThreshold := None; YOLODecoder.minConfidence := None |} in
  let array := [10; 20; 30; 40; 0.9; 0.8]%Q in
  ~ (JS.len array < 5 + Z.of_nat (YOLODecoder.numClasses config) ->
     YOLODecoder.decode (YOLODecoder.new config) array None = Some []).
Proof.
  cbn zeta. intros Hclaim.
  specialize (Hclaim ltac:(vm_compute; reflexivity)).
  vm_compute in Hclaim. discriminate Hclaim.
Qed.

(** ** The binarizing loop *)

Lemma normalize_pixel_step (config : ImagePreprocessor.PreprocessConfig)
    (buffer : list Byte.byte) (channels targetSize : Z) (j : nat)
    (normalized : list Q) :
  0 < channels ->
  Aux.normalized_upto config buffer channels targetSize j normalized ->
  Aux.normalized_upto config buffer channels targetSize (S j)
    (ImagePreprocessor.normalize_pixel config buffer channels targetSize
       (Z.of_nat j * channels) normalized).
Proof.
  intros Hch [Hlen Hinv]. unfold ImagePreprocessor.normalize_pixel.
  rewrite Z.quot_mul by lia.
  destruct (Z.ltb_spec (Z.of_nat j) targetSize) as [Hin|Hout].
  - destruct (Z.ltb_spec (Z.of_nat j) 0); [lia|]. rewrite Nat2Z.id.
    split; [by rewrite length_insert|].
    intros p Hp. destruct (decide (p = j)) as [->|Hne].
    + rewrite list_lookup_insert_eq by lia.
      by destruct (Nat.ltb_spec j (S j)); [|lia].
    + rewrite list_lookup_insert_ne by done. rewrite (Hinv p Hp).
      by destruct (Nat.ltb_spec p j), (Nat.ltb_spec p (S j)); try lia.
  - split; [done|]. intros p Hp. rewrite (Hinv p Hp).
    by destruct (Nat.ltb_spec p j), (Nat.ltb_spec p (S j)); try lia.
Qed.

(** The loop handles the pixels in order and stops by its own test. *)
Lemma pixels_run (config : ImagePreprocessor.PreprocessConfig)
    (buffer : list Byte.byte) (channels targetSize : Z) :
  0 < channels ->
  forall (n fuel j : nat) (normalized : list Q),
    (j + n = Aux.turns (JS.len buffer) channels)%nat ->
    (n < fuel)%nat ->
    Aux.normalized_upto config buffer channels targetSize j normalized ->
    exists normalized',
      ImagePreprocessor.pixels config buffer channels targetSize fuel
        (Z.of_nat j * channels) normalized = Some normalized'
      /\ Aux.normalized_upto config buffer channels targetSize
           (Aux.turns (JS.len buffer) channels) normalized'.
Proof.
  intros Hch.
  assert (0 <= JS.len buffer) as Hlen by (unfold JS.len; lia).
  induction n as [|n IH]; intros fuel j normalized Hturns Hfuel Hinv;
    (destruct fuel as [|fuel]; [lia|]); cbn [ImagePreprocessor.pixels];
    rewrite turns_spec by done.
  - destruct (Nat.ltb_spec j (Aux.turns (JS.len buffer) channels)); [lia|].
    exists normalized. split; [done|]. by replace (Aux.turns _ _) with j by lia.
  - destruct (Nat.ltb_spec j (Aux.turns (JS.len buffer) channels)); [|lia].
    replace (Z.of_nat j * channels + channels) with (Z.of_nat (S j) * channels) by lia.
    apply IH; [lia|lia|]. by apply normalize_pixel_step.
Qed.

(** C8.  [normalize] returns an array in which pixel [p] holds 1 exactly
    when its alpha value, the byte three places after the pixel's first
    byte (the fourth channel of an RGBA pixel), is strictly below the
    threshold, and 0 otherwise; with threshold 254, alpha 10 gives 1 and
    alpha 255 gives 0. *)
Theorem binarize_alpha_below_threshold
    (config : ImagePreprocessor.PreprocessConfig) (buffer : list Byte.byte)
    (width height channels : Z) (p : nat) (alphaValue : Byte.byte) :
  0 < channels ->
  Z.of_nat p < width * height * ImagePreprocessor.channels config ->
  JS.get buffer (Z.of_nat p * channels + 3) = Some alphaValue ->
  (exists normalized,
      ImagePreprocessor.normalize config buffer width height channels
      = Some normalized
      /\ ((inject_Z (ImagePreprocessor.byte_value alphaValue)
            < ImagePreprocessor.threshold config)%Q ->
          normalized !! p = Some 1%Q)
      /\ (~ (inject_Z (ImagePreprocessor.byte_value alphaValue)
              < ImagePreprocessor.threshold config)%Q ->
          normalized !! p = Some 0%Q))
  /\ ImagePreprocessor.normalize
       {| ImagePreprocessor.width := 2; ImagePreprocessor.height := 1;
          ImagePreprocessor.channels := 1; ImagePreprocessor.threshold := 254%Q;
          ImagePreprocessor.backgroundColor :=
            ImagePreprocessor.backgroundColor ImagePreprocessor.DEFAULTS |}
       [Byte.x00; Byte.x00; Byte.x00; Byte.x0a;
        Byte.x00; Byte.x00; Byte.x00; Byte.xff] 2 1 4
     = Some [1%Q; 0%Q].
Proof.
  intros Hch Hp Halpha. split; [|reflexivity].
  set (targetSize := width * height * ImagePreprocessor.channels config) in *.
  destruct (pixels_run config buffer channels targetSize Hch
              (Aux.turns (JS.len buffer) channels) (S (length buffer)) 0
              (replicate (Z.to_nat targetSize) 0%Q))
    as (normalized & Hrun & Hlen & Hinv).
  - done.
  - pose proof (turns_le (JS.len buffer) channels ltac:(unfold JS.len; lia) Hch).
    unfold JS.len in *. lia.
  - split; [by rewrite length_replicate|].
    intros q Hq. rewrite lookup_replicate_2 by lia. done.
  - exists normalized. split; [exact Hrun|].
    assert (p < Aux.turns (JS.len buffer) channels)%nat as Hturn.
    { pose proof (turns_spec (JS.len buffer) channels p
                    ltac:(unfold JS.len; lia) Hch) as Hspec.
      destruct (Nat.ltb_spec p (Aux.turns (JS.len buffer) channels)); [done|].
      apply Z.ltb_ge in Hspec.
      rewrite get_beyond in Halpha by lia. done. }
    rewrite (Hinv p Hp).
    destruct (Nat.ltb_spec p (Aux.turns (JS.len buffer) channels)); [|lia].
    unfold Aux.pixel_value. rewrite Halpha.
    change (default 255 (ImagePreprocessor.byte_value <$> Some alphaValue))
      with (ImagePreprocessor.byte_value alphaValue).
    split; intros Hcmp.
    + apply Qltb_lt in Hcmp. by rewrite Hcmp.
    + destruct (JS.Qltb _ _) eqn:Hlt; [|done]. by apply Qltb_lt in Hlt.
Qed.

Lemma binarize_alpha_below_threshold_witness :
  exists normalized,
    ImagePreprocessor.normalize ImagePreprocessor.DEFAULTS
      [Byte.x00; Byte.x00; Byte.x00; Byte.xff;
       Byte.x00; Byte.x00; Byte.x00; Byte.x0a] 160 64 4
    = Some normalized
    /\ ((inject_Z 10 < 254)%Q -> normalized !! 1%nat = Some 1%Q)
    /\ (~ (inject_Z 10 < 254)%Q -> normalized !! 1%nat = Some 0%Q).
Proof.
  refine (proj1 (binarize_alpha_below_threshold ImagePreprocessor.DEFAULTS
                   [Byte.x00; Byte.x00; Byte.x00; Byte.xff;
                    Byte.x00; Byte.x00; Byte.x00; Byte.x0a] 160 64 4 1 Byte.x0a
                   _ _ _)).
  - lia.
  - vm_compute. reflexivity.
  - reflexivity.
Defined.

(** ** The model-service lifecycle *)

Lemma initialize_first (st : ModelService.state) :
  ModelService.session st = None ->
  ModelService.initPromise st = None ->
  let p := length (ModelService.promises st) in
  let st' := fst (ModelService.initialize st) in
  snd (ModelService.initialize st) = ModelService.Follows p
  /\ ModelService.initPromise st' = Some p
  /\ ModelService.session st' = None
  /\ ModelService.promises st' = ModelService.promises st ++ [ModelService.Pending]
  /\ ModelService.creates st' = S (ModelService.creates st)
  /\ ModelService.releasing st' = ModelService.releasing st.
Proof.
  intros Hsession Hmemo. unfold ModelService.initialize.
  rewrite Hsession, Hmemo. cbn. by rewrite Hsession.
Qed.

Lemma initialize_memo (st : ModelService.state) (p : nat) :
  ModelService.initPromise st = Some p ->
  ModelService.initialize st
  = (st, if ModelService.isInitialized st
         then ModelService.Resolved else ModelService.Follows p).
Proof.
  intros Hmemo. unfold ModelService.initialize, ModelService.isInitialized.
  rewrite Hmemo. by destruct (ModelService.session st).
Qed.

Lemma predict_state (st : ModelService.state) :
  fst (ModelService.predict st) = fst (ModelService.initialize st).
Proof. unfold ModelService.predict. by destruct (ModelService.initialize st). Qed.

(** Outside [dispose], nothing touches a memo that is set. *)
Lemma step_keeps_memo (st : ModelService.state) (ev : ModelService.event) (p : nat) :
  ModelService.of_dispose ev = false ->
  ModelService.initPromise st = Some p ->
  ModelService.initPromise (ModelService.step st ev) = Some p.
Proof.
  intros Hev Hmemo. destruct ev as [| |q s|q| | |]; try done; cbn [ModelService.step].
  - by rewrite (initialize_memo st p Hmemo).
  - by rewrite predict_state, (initialize_memo st p Hmemo).
  - unfold ModelService.create_resolved.
    by destruct (ModelService.promises st !! q) as [[]|].
  - unfold ModelService.create_rejected.
    by destruct (ModelService.promises st !! q) as [[]|].
Qed.

Lemma step_never_disposed (st : ModelService.state) (ev : ModelService.event) :
  ModelService.of_dispose ev = false ->
  Aux.never_disposed st ->
  Aux.never_disposed (ModelService.step st ev).
Proof.
  intros Hev [Hrel Hinv].
  assert (Aux.never_disposed (fst (ModelService.initialize st))) as Hinit.
  { destruct (ModelService.initPromise st) as [p|] eqn:Hmemo.
    - rewrite (initialize_memo st p Hmemo). cbn [fst].
      split; [done|]. by rewrite Hmemo.
    - destruct Hinv as (Hsession & Hpromises & Hcreates).
      destruct (initialize_first st Hsession Hmemo)
        as (_ & Hmemo' & Hsession' & Hpromises' & Hcreates' & Hrel').
      split; [congruence|]. rewrite Hmemo', Hpromises', Hcreates', Hpromises.
      split_and!; [done|done|lia|]. by rewrite Hsession'. }
  destruct ev as [| |q s|q| | |]; try done; cbn [ModelService.step].
  - by rewrite predict_state.
  - unfold ModelService.create_resolved.
    destruct (ModelService.promises st !! q) as [[]|] eqn:Hq; try by split.
    split; [done|]. cbn.
    destruct (ModelService.initPromise st) as [p|].
    + destruct Hinv as (-> & Hlen & Hcreates & Hfulfilled).
      rewrite length_insert. split_and!; [done|done|done|]. intros _.
      destruct (ModelService.promises st) as [|x [|y l]]; try done.
      by destruct q.
    + destruct Hinv as (_ & Hpromises & _). by rewrite Hpromises in Hq.
  - unfold ModelService.create_rejected.
    destruct (ModelService.promises st !! q) as [[]|] eqn:Hq; try by split.
    split; [done|]. cbn.
    destruct (ModelService.initPromise st) as [p|].
    + destruct Hinv as (-> & Hlen & Hcreates & Hfulfilled).
      rewrite length_insert. split_and!; [done|done|done|]. intros Hsession.
      specialize (Hfulfilled Hsession).
      destruct (ModelService.promises st) as [|x [|y l]]; try done.
      destruct q; [|done]. cbn in *. congruence.
    + destruct Hinv as (_ & Hpromises & _). by rewrite Hpromises in Hq.
Qed.

Lemma run_never_disposed (evs : list ModelService.event) :
  forall st : ModelService.state,
    Forall (fun ev => ModelService.of_dispose ev = false) evs ->
    Aux.never_disposed st ->
    Aux.never_disposed (ModelService.run st evs).
Proof.
  induction evs as [|ev evs IH]; intros st Hevs Hinv; [done|].
  apply Forall_cons in Hevs as [Hev Hevs]. cbn.
  apply IH; [done|]. by apply step_never_disposed.
Qed.

Lemma fresh_never_disposed : Aux.never_disposed ModelService.fresh.
Proof. by split. Qed.

(** C4.  [initialize()] on a service without session and memo starts one
    load and memoizes it; any call made while the memo is set changes
    nothing, so starts no load, and returns the memoized operation (on a
    service never disposed, also once the session is there: the promise it
    returns stands as the memoized one); a successful load leaves the memo
    in place; no event other than those of [dispose()] clears a memo, and
    [dispose()] does; between construction and [dispose()] at most one
    load is ever started, and two calls on a fresh service start exactly
    one. *)
Theorem initialize_loads_once (st : ModelService.state)
    (evs : list ModelService.event) :
  (ModelService.session st = None -> ModelService.initPromise st = None ->
     let p := length (ModelService.promises st) in
     let st' := fst (ModelService.initialize st) in
     snd (ModelService.initialize st) = ModelService.Follows p
     /\ ModelService.initPromise st' = Some p
     /\ ModelService.promises st' !! p = Some ModelService.Pending
     /\ ModelService.creates st' = S (ModelService.creates st))
  /\ (forall p, ModelService.initPromise st = Some p ->
        fst (ModelService.initialize st) = st
        /\ (ModelService.session st = None ->
            snd (ModelService.initialize st) = ModelService.Follows p))
  /\ (forall p s,
        ModelService.initPromise (ModelService.create_resolved p s st)
        = ModelService.initPromise st)
  /\ (forall ev p,
        ModelService.of_dispose ev = false ->
        ModelService.initPromise st = Some p ->
        ModelService.initPromise (ModelService.step st ev) = Some p)
  /\ (ModelService.session st = None ->
      ModelService.initPromise (ModelService.dispose st) = None)
  /\ ((0 < ModelService.releasing st)%nat ->
      ModelService.initPromise (ModelService.release_resolved st) = None)
  /\ (Forall (fun ev => ModelService.of_dispose ev = false) evs ->
      let st' := ModelService.run ModelService.fresh evs in
      (ModelService.creates st' <= 1)%nat
      /\ forall p, ModelService.initPromise st' = Some p ->
           fst (ModelService.initialize st') = st'
           /\ ModelService.settled st' (snd (ModelService.initialize st'))
              = ModelService.settled st' (ModelService.Follows p))
  /\ ModelService.creates
       (ModelService.run ModelService.fresh
          [ModelService.CallInitialize; ModelService.CallInitialize]) = 1%nat.
Proof.
  split_and!.
  - intros Hsession Hmemo.
    destruct (initialize_first st Hsession Hmemo)
      as (Hres & Hmemo' & _ & Hpromises & Hcreates & _).
    split_and!; [done|done| |done].
    rewrite Hpromises. by rewrite lookup_app_r, Nat.sub_diag by lia.
  - intros p Hmemo. rewrite (initialize_memo st p Hmemo). split; [done|].
    intros Hsession. unfold ModelService.isInitialized. by rewrite Hsession.
  - intros p s. unfold ModelService.create_resolved.
    by destruct (ModelService.promises st !! p) as [[]|].
  - intros ev p. apply step_keeps_memo.
  - intros Hsession. unfold ModelService.dispose. by rewrite Hsession.
  - intros Hrel. unfold ModelService.release_resolved.
    destruct (ModelService.releasing st); [lia|done].
  - intros Hevs st'.
    destruct (run_never_disposed evs ModelService.fresh Hevs fresh_never_disposed)
      as [Hrel Hinv].
    fold st' in Hinv. split.
    + destruct (ModelService.initPromise st'); [|lia].
      destruct Hinv as (_ & _ & -> & _). done.
    + intros p Hmemo. rewrite (initialize_memo st' p Hmemo). split; [done|].
      rewrite Hmemo in Hinv. destruct Hinv as (-> & _ & _ & Hfulfilled).
      unfold ModelService.isInitialized.
      destruct (ModelService.session st') eqn:Hsession; [|done].
      cbn. by rewrite Hfulfilled.
  - reflexivity.
Qed.

Lemma initialize_loads_once_witness :
  let st' :=
    ModelService.run ModelService.fresh
      [ModelService.CallInitialize; ModelService.CallPredict;
       ModelService.CreateResolved 0 7%nat; ModelService.CallInitialize;
       ModelService.CallPredict] in
  (ModelService.creates st' <= 1)%nat
  /\ forall p, ModelService.initPromise st' = Some p ->
       fst (ModelService.initialize st') = st'
       /\ ModelService.settled st' (snd (ModelService.initialize st'))
          = ModelService.settled st' (ModelService.Follows p).
Proof.
  refine (proj1 (proj2 (proj2 (proj2 (proj2 (proj2 (proj2
            (initialize_loads_once ModelService.fresh
               [ModelService.CallInitialize; ModelService.CallPredict;
                ModelService.CreateResolved 0 7%nat; ModelService.CallInitialize;
                ModelService.CallPredict]))))))) _).
  repeat constructor.
Defined.

(** C3, as the code has it.  After a load started on a service without
    session and memo has failed, the service is not ready and the rejected
    load stays memoized: [predict()] changes nothing, so starts no load,
    and fails with the memoized error; once [dispose()] has cleared the
    memo, [predict()] starts a new load. *)
Theorem failed_load_stays_memoized (st : ModelService.state) :
  ModelService.session st = None ->
  ModelService.initPromise st = None ->
  let p := length (ModelService.promises st) in
  let failed := ModelService.create_rejected p (fst (ModelService.initialize st)) in
  ModelService.isInitialized failed = false
  /\ ModelService.initPromise failed = Some p
  /\ ModelService.predict failed
     = (failed,
        ModelService.Fails
          "Failed to solve Huntbot captcha: Failed to initialize Huntbot model")
  /\ ~ ModelService.starts_load failed ModelService.CallPredict
  /\ ModelService.initPromise (ModelService.dispose failed) = None
  /\ ModelService.starts_load (ModelService.dispose failed) ModelService.CallPredict.
Proof.
  intros Hsession Hmemo p failed.
  destruct (initialize_first st Hsession Hmemo)
    as (_ & Hmemo' & Hsession' & Hpromises & Hcreates & _).
  assert (ModelService.promises (fst (ModelService.initialize st)) !! p
          = Some ModelService.Pending) as Hpending
    by (rewrite Hpromises; by rewrite lookup_app_r, Nat.sub_diag by lia).
  assert (ModelService.session failed = None
          /\ ModelService.initPromise failed = Some p
          /\ ModelService.promises failed !! p
             = Some (ModelService.Rejected "Failed to initialize Huntbot model"))
    as (Hs & Hm & Hp).
  { unfold failed, ModelService.create_rejected. rewrite Hpending. cbn.
    split_and!; [done|done|].
    apply list_lookup_insert_eq. by apply lookup_lt_Some in Hpending. }
  assert (ModelService.predict failed
          = (failed,
             ModelService.Fails
               "Failed to solve Huntbot captcha: Failed to initialize Huntbot model"))
    as Hpredict.
  { unfold ModelService.predict. rewrite (initialize_memo failed p Hm).
    unfold ModelService.isInitialized, ModelService.predict_after. rewrite Hs.
    cbn [ModelService.settled]. by rewrite Hp. }
  assert (ModelService.session (ModelService.dispose failed) = None
          /\ ModelService.initPromise (ModelService.dispose failed) = None
          /\ ModelService.creates (ModelService.dispose failed)
             = ModelService.creates failed) as (Hds & Hdm & Hdc)
    by (unfold ModelService.dispose; by rewrite Hs).
  split_and!; try done.
  - unfold ModelService.isInitialized. by rewrite Hs.
  - unfold ModelService.starts_load. cbn [ModelService.step].
    rewrite Hpredict. cbn [fst]. lia.
  - unfold ModelService.starts_load. cbn [ModelService.step].
    rewrite predict_state.
    by destruct (initialize_first _ Hds Hdm) as (_ & _ & _ & _ & -> & _).
Qed.

Lemma failed_load_stays_memoized_witness :
  let failed :=
    ModelService.create_rejected 0%nat (fst (ModelService.initialize ModelService.fresh)) in
  ModelService.isInitialized failed = false
  /\ ModelService.initPromise failed = Some O
  /\ ModelService.predict failed
     = (failed,
        ModelService.Fails
          "Failed to solve Huntbot captcha: Failed to initialize Huntbot model")
  /\ ~ ModelService.starts_load failed ModelService.CallPredict
  /\ ModelService.initPromise (ModelService.dispose failed) = None
  /\ ModelService.starts_load (ModelService.dispose failed) ModelService.CallPredict.
Proof.
  apply (failed_load_stays_memoized ModelService.fresh); reflexivity.
Defined.

(** C3, as stated, fails: on a fresh service whose first load failed, a
    later [predict()] does not start a load. *)
Lemma predict_after_failed_load_counterexample :
  let failed :=
    ModelService.run ModelService.fresh
      [ModelService.CallInitialize; ModelService.CreateRejected 0%nat] in
  ~ (ModelService.isInitialized failed = false
     /\ ModelService.starts_load failed ModelService.CallPredict).
Proof.
  cbn zeta. intros [_ Hload]. vm_compute in Hload. discriminate Hload.
Qed.

(** * Further properties of the sources *)

(** ** The alphabets *)

Lemma fromCharCode_inj (a b : Z) :
  0 <= a < 256 -> 0 <= b < 256 ->
  JS.fromCharCode a = JS.fromCharCode b -> a = b.
Proof.
  intros Ha Hb [= Heq]. apply (f_equal Ascii.nat_of_ascii) in Heq.
  rewrite !Ascii.nat_ascii_embedding in Heq by lia. lia.
Qed.

Lemma fromCharCode_not_question (a : Z) :
  0 <= a < 256 -> a <> 63 -> JS.fromCharCode a <> "?".
Proof.
  intros Ha Hne Heq. apply Hne.
  apply (fromCharCode_inj a 63 Ha ltac:(lia)). by rewrite Heq.
Qed.

Lemma decodeChar_lowercase (code : Z) :
  HuntbotDecoder.decodeChar code = Onehot.lowercaseDecoder code.
Proof.
  unfold HuntbotDecoder.decodeChar, Onehot.lowercaseDecoder.
  by destruct (Z.ltb_spec code 0), (Z.gtb_spec code 25), (Z.geb_spec code 26);
    try lia.
Qed.

(** X1.  [lowercaseDecoder] and [HuntbotDecoder.decodeChar] are the same
    map: a code from 0 to 25 gives the one-character string of code point
    97 + code, any other code gives ["?"]; a code from 0 to 25 shares its
    symbol with no other code. *)
Theorem lowercase_alphabet (code other : Z) :
  HuntbotDecoder.decodeChar code = Onehot.lowercaseDecoder code
  /\ (0 <= code <= 25 ->
        Onehot.lowercaseDecoder code = JS.fromCharCode (97 + code)
        /\ (Onehot.lowercaseDecoder code = Onehot.lowercaseDecoder other ->
            code = other))
  /\ (~ 0 <= code <= 25 -> Onehot.lowercaseDecoder code = "?").
Proof.
  split_and!; [apply decodeChar_lowercase| |]; unfold Onehot.lowercaseDecoder.
  - intros Hcode.
    destruct (Z.ltb_spec code 0), (Z.gtb_spec code 25); try lia. cbn [orb].
    split; [f_equal; lia|].
    destruct (Z.ltb_spec other 0), (Z.gtb_spec other 25); cbn [orb]; intros Heq.
    1-3: by apply fromCharCode_not_question in Heq; [|lia|lia].
    apply fromCharCode_inj in Heq; lia.
  - intros Hcode.
    by destruct (Z.ltb_spec code 0), (Z.gtb_spec code 25); try lia.
Qed.

Lemma lowercase_alphabet_witness :
  Onehot.lowercaseDecoder 4 = JS.fromCharCode (97 + 4)
  /\ (Onehot.lowercaseDecoder 4 = Onehot.lowercaseDecoder 30 -> 4 = 30).
Proof.
  apply (lowercase_alphabet 4 30). lia.
Defined.

Lemma in_range_nat (code bound : Z) :
  0 <= code < bound -> code ∈ Z.of_nat <$> seq 0 (Z.to_nat bound).
Proof.
  intros Hcode. apply list_elem_of_fmap. exists (Z.to_nat code).
  split; [lia|]. apply list_elem_of_In, in_seq. lia.
Qed.

(** X2.  [alphanumericDecoder] gives a one-character symbol to every code
    from 0 to 36 (space, the ten digits, the lowercase letters), ["?"] to
    any other code, and a code from 0 to 36 shares its symbol with no
    other code. *)
Theorem alphanumeric_alphabet (code other : Z) :
  (0 <= code <= 36 ->
     String.length (Onehot.alphanumericDecoder code) = 1%nat
     /\ Onehot.alphanumericDecoder code <> "?"
     /\ (Onehot.alphanumericDecoder code = Onehot.alphanumericDecoder other ->
         code = other))
  /\ (~ 0 <= code <= 36 -> Onehot.alphanumericDecoder code = "?").
Proof.
  assert (forallb (fun a =>
            (String.length (Onehot.alphanumericDecoder a) =? 1)%nat
            && negb (String.eqb (Onehot.alphanumericDecoder a) "?")
            && forallb (fun b =>
                 implb (String.eqb (Onehot.alphanumericDecoder a)
                                   (Onehot.alphanumericDecoder b))
                       (a =? b))
                 (Z.of_nat <$> seq 0 37))
            (Z.of_nat <$> seq 0 37) = true) as Htable by (vm_compute; reflexivity).
  assert (forall c, ~ 0 <= c <= 36 -> Onehot.alphanumericDecoder c = "?") as Hout.
  { intros c Hc. unfold Onehot.alphanumericDecoder.
    destruct (Z.eqb_spec c 0); [lia|].
    by destruct (Z.geb_spec c 1), (Z.leb_spec c 10),
                (Z.geb_spec c 11), (Z.leb_spec c 36); try lia. }
  split; [|apply Hout].
  intros Hcode. rewrite forallb_forall in Htable.
  specialize (Htable code ltac:(apply list_elem_of_In, (in_range_nat code 37); lia)).
  apply andb_prop in Htable as [Hone Hall].
  apply andb_prop in Hone as [Hlen Hq].
  split_and!.
  - by apply Nat.eqb_eq.
  - intros Heq. rewrite Heq in Hq. done.
  - intros Heq.
    destruct (decide (0 <= other <= 36)) as [Hother|Hother].
    + rewrite forallb_forall in Hall.
      specialize (Hall other
        ltac:(apply list_elem_of_In, (in_range_nat other 37); lia)).
      rewrite Heq, String.eqb_refl in Hall. by apply Z.eqb_eq.
    + rewrite (Hout other Hother) in Heq. rewrite Heq in Hq. done.
Qed.

Lemma alphanumeric_alphabet_witness :
  String.length (Onehot.alphanumericDecoder 10) = 1%nat
  /\ Onehot.alphanumericDecoder 10 <> "?"
  /\ (Onehot.alphanumericDecoder 10 = Onehot.alphanumericDecoder 11 -> 10 = 11).
Proof.
  apply (alphanumeric_alphabet 10 11). lia.
Defined.

(** ** What the one-hot decoders return *)

Lemma decode_checked_inr (array : list Q) (depth : Z) (decoder : Z -> string)
    (minConfidence : Q) (results : list (DecodedResult string)) :
  Onehot.decode_checked array depth decoder minConfidence = inr results ->
  array <> [] /\ JS.rem (JS.len array) depth = Some 0
  /\ results = Spec.onehot array depth decoder minConfidence.
Proof.
  intros Hdecode.
  assert (array <> [] /\ JS.rem (JS.len array) depth = Some 0) as [Hne Hrem].
  { unfold Onehot.decode_checked in Hdecode.
    destruct array as [|v array]; [done|]. split; [done|].
    destruct (JS.len (v :: array) =? 0); [done|].
    destruct (JS.rem _ _) as [z|]; [|done]. cbn in Hdecode.
    destruct (Z.eqb_spec z 0); [by subst|done]. }
  rewrite decode_checked_spec in Hdecode by done. by injection Hdecode as <-.
Qed.

Lemma exact_blocks (array : list Q) (depth : Z) :
  0 < depth -> JS.rem (JS.len array) depth = Some 0 ->
  (Z.to_nat (JS.len array / depth) * Z.to_nat depth = length array)%nat.
Proof.
  intros Hdepth Hrem. unfold JS.rem in Hrem.
  destruct (Z.eqb_spec depth 0); [lia|]. injection Hrem as Hrem.
  rewrite Z.rem_mod_nonneg in Hrem by (unfold JS.len; lia).
  pose proof (Z.div_mod (JS.len array) depth ltac:(lia)) as Hdiv.
  assert (0 <= JS.len array / depth) by (apply Z.div_pos; unfold JS.len; lia).
  unfold JS.len in *. nia.
Qed.

Lemma onehot_elements (array : list Q) (depth : Z) (decoder : Z -> string)
    (minConfidence : Q) (r : DecodedResult string) :
  r ∈ Spec.onehot array depth decoder minConfidence ->
  exists (p i : nat) (m : Q),
    (p < Z.to_nat (JS.len array / depth))%nat
    /\ Spec.argmax (Spec.chunk array (Z.to_nat depth) p) = Some (i, m)
    /\ (minConfidence <= m)%Q
    /\ r = mkResult (decoder (Z.of_nat i)) (JS.Fin m) (Z.of_nat p).
Proof.
  unfold Spec.onehot. intros (p & Hp & Hr)%list_elem_of_omap.
  apply list_elem_of_In, in_seq in Hp. unfold Spec.onehot_position in Hr.
  destruct (Spec.argmax _) as [[i m]|] eqn:Harg; [|done].
  destruct (Qle_bool minConfidence m) eqn:Hle; [|done].
  injection Hr as <-. exists p, i, m.
  split_and!; [lia|done|by apply Qle_bool_iff|done].
Qed.

(** X3.  Every result a one-hot decoder returns is backed by the buffer:
    its confidence is the value the buffer holds at the selected index of
    the result's block, that value is at least [minConfidence], the index
    is below [depth], and the symbol is the decoder's for that index. *)
Theorem onehot_results_sound (array : list Q) (depth : Z)
    (decoder : Z -> string) (minConfidence : option Q)
    (results : list (DecodedResult string)) (r : DecodedResult string) :
  Onehot.onehotDecode array
    {| Onehot.depth := depth; Onehot.decoder := decoder;
       Onehot.minConfidence := minConfidence |} = inr results ->
  r ∈ results ->
  exists (i : Z) (m : Q),
    0 <= i < depth
    /\ 0 <= position r < JS.len array / depth
    /\ JS.get array (position r * depth + i) = Some m
    /\ confidence r = JS.Fin m
    /\ (default 0%Q minConfidence <= m)%Q
    /\ value r = decoder i.
Proof.
  intros (Hne & Hrem & ->)%decode_checked_inr Hr.
  apply onehot_elements in Hr as (p & i & m & Hp & Harg & Hmin & ->).
  apply argmax_first_max in Harg as [Hi _].
  cbn [Onehot.depth] in *.
  assert (0 < depth) as Hdepth.
  { destruct (Z.lt_ge_cases 0 depth) as [|Hle]; [done|].
    unfold JS.rem in Hrem. destruct (Z.eqb_spec depth 0); [done|].
    pose proof (Z.div_mod (JS.len array) depth ltac:(done)) as Hdiv.
    pose proof (Z.mod_neg_bound (JS.len array) depth ltac:(lia)).
    unfold JS.len in *. nia. }
  assert (i < Z.to_nat depth)%nat as Hlt.
  { apply lookup_lt_Some in Hi. unfold Spec.chunk in Hi.
    rewrite length_take in Hi. lia. }
  exists (Z.of_nat i), m. cbn [position confidence value].
  split_and!; try done; try lia.
  rewrite <- Hi, <- (chunk_get array (Z.to_nat depth) p i Hlt).
  f_equal. lia.
Qed.

Lemma onehot_results_sound_witness :
  exists (i : Z) (m : Q),
    0 <= i < 3
    /\ 0 <= 1 < 6 / 3
    /\ JS.get [0.1; 0.7; 0.2; 0.4; 0.4; 0.3]%Q (1 * 3 + i) = Some m
    /\ JS.Fin 0.4%Q = JS.Fin m
    /\ (0.25 <= m)%Q
    /\ "a" = Onehot.lowercaseDecoder i.
Proof.
  apply (onehot_results_sound [0.1; 0.7; 0.2; 0.4; 0.4; 0.3]%Q 3
           Onehot.lowercaseDecoder (Some 0.25%Q)
           [mkResult "b" (JS.Fin 0.7%Q) 0; mkResult "a" (JS.Fin 0.4%Q) 1]
           (mkResult "a" (JS.Fin 0.4%Q) 1)).
  - reflexivity.
  - right. left.
Defined.

Lemma omap_total_positions {T : Type} (f : nat -> option (DecodedResult T))
    (l : list nat) :
  (forall p, p ∈ l -> exists r, f p = Some r /\ position r = Z.of_nat p) ->
  position <$> omap f l = Z.of_nat <$> l.
Proof.
  induction l as [|p l IH]; intros Hf; [done|]. rewrite omap_cons.
  destruct (Hf p ltac:(left)) as (r & -> & Hpos). cbn. rewrite Hpos. f_equal.
  apply IH. intros q Hq. apply Hf. by right.
Qed.

(** X4.  When no value of the buffer is below [minConfidence] (as with
    the default threshold 0 on scores that are not negative), a one-hot
    decoder drops nothing: it returns one result per block, at positions
    0, 1, ..., [L / depth - 1]. *)
Theorem onehot_keeps_every_position (array : list Q) (depth : Z)
    (decoder : Z -> string) (minConfidence : option Q) :
  array <> [] ->
  0 < depth ->
  JS.rem (JS.len array) depth = Some 0 ->
  (forall v, v ∈ array -> (default 0%Q minConfidence <= v)%Q) ->
  exists results,
    Onehot.onehotDecode array
      {| Onehot.depth := depth; Onehot.decoder := decoder;
         Onehot.minConfidence := minConfidence |} = inr results
    /\ position <$> results
       = Z.of_nat <$> seq 0 (Z.to_nat (JS.len array / depth)).
Proof.
  intros Hne Hdepth Hrem Hmin. eexists. split; [by apply decode_checked_spec|].
  cbn [Onehot.depth Onehot.decoder Onehot.minConfidence].
  apply omap_total_positions. intros p Hp%list_elem_of_In%in_seq.
  pose proof (exact_blocks array depth Hdepth Hrem) as Hexact.
  destruct (chunk_split array (Z.to_nat depth) p ltac:(nia)) as (_ & _ & Hlen).
  destruct (argmax_nonempty (Spec.chunk array (Z.to_nat depth) p))
    as (i & m & Harg).
  { intros Hnil. rewrite Hnil in Hlen. cbn in Hlen. lia. }
  unfold Spec.onehot_position. rewrite Harg.
  apply argmax_first_max in Harg as [Hi _].
  assert (m ∈ array) as Hin.
  { apply list_elem_of_lookup_2 in Hi. unfold Spec.chunk in Hi.
    by apply (subseteq_drop (p * Z.to_nat depth)), (subseteq_take (Z.to_nat depth)). }
  apply Hmin, Qle_bool_iff in Hin. rewrite Hin. by eexists.
Qed.

Lemma onehot_keeps_every_position_witness :
  exists results,
    Onehot.onehotDecode [0.1; 0.7; 0.2; 0.4; 0.4; 0.3]%Q
      {| Onehot.depth := 3; Onehot.decoder := Onehot.lowercaseDecoder;
         Onehot.minConfidence := None |} = inr results
    /\ position <$> results = Z.of_nat <$> seq 0 (Z.to_nat (6 / 3)).
Proof.
  apply (onehot_keeps_every_position [0.1; 0.7; 0.2; 0.4; 0.4; 0.3]%Q 3
           Onehot.lowercaseDecoder None); [discriminate | lia | reflexivity |].
  intros v Hv. cbn.
  repeat (apply elem_of_cons in Hv as [->|Hv]; [by vm_compute|]).
  by apply elem_of_nil in Hv.
Defined.

(** ** String lengths *)

Lemma length_append (s1 s2 : string) :
  String.length (s1 +:+ s2) = (String.length s1 + String.length s2)%nat.
Proof.
  induction s1 as [|c s1 IH]; [done|].
  change (S (String.length (s1 +:+ s2))
          = S (String.length s1 + String.length s2)). by f_equal.
Qed.

Lemma length_substring0 (n : nat) (s : string) :
  String.length (substring 0 n s) = Nat.min n (String.length s).
Proof.
  revert n. induction s as [|c s IH]; intros [|n]; cbn; try done.
  by rewrite IH.
Qed.

Lemma length_join_chars (parts : list string) :
  Forall (fun part => String.length part = 1%nat) parts ->
  String.length (Str.join "" parts) = length parts.
Proof.
  unfold Str.join. induction 1 as [|part parts Hpart _ IH]; [done|].
  destruct parts as [|next parts]; [done|].
  cbn [String.concat length] in *. rewrite !length_append, Hpart, IH. done.
Qed.

Lemma length_lowercase (code : Z) :
  String.length (Onehot.lowercaseDecoder code) = 1%nat.
Proof. unfold Onehot.lowercaseDecoder. by destruct (_ || _). Qed.

(** X5.  The text rendered from what [HuntbotDecoder.decode], or
    [onehotDecode] with the lowercase alphabet, returns has exactly one
    character per result. *)
Theorem decoded_text_length (array : list Q) (depth : Z)
    (minConfidence : option Q)
    (defaultConfig : HuntbotDecoder.HuntbotDecoderConfig)
    (results : list (DecodedResult string)) :
  Onehot.onehotDecode array
    {| Onehot.depth := depth; Onehot.decoder := Onehot.lowercaseDecoder;
       Onehot.minConfidence := minConfidence |} = inr results
  \/ HuntbotDecoder.decode defaultConfig array
       (Some {| HuntbotDecoder.depth := depth;
                HuntbotDecoder.minConfidence := minConfidence |})
     = inr results ->
  Str.len (DecodedText.decodeToString results) = JS.len results.
Proof.
  intros Hdecode.
  assert (exists decoder m,
            (forall code, String.length (decoder code) = 1%nat)
            /\ Onehot.decode_checked array depth decoder m = inr results)
    as (decoder & m & Hchar & Hchecked).
  { destruct Hdecode as [H|H].
    - exists Onehot.lowercaseDecoder, (default 0%Q minConfidence).
      split; [apply length_lowercase | exact H].
    - eexists HuntbotDecoder.decodeChar, _. split; [|exact H].
      intros code. rewrite decodeChar_lowercase. apply length_lowercase. }
  apply decode_checked_inr in Hchecked as (Hne & Hrem & ->).
  unfold Str.len, JS.len, DecodedText.decodeToString. f_equal.
  rewrite length_join_chars, length_fmap; [done|].
  apply Forall_fmap, Forall_forall.
  intros r (p & i & v & _ & _ & _ & ->)%onehot_elements. apply Hchar.
Qed.

Lemma decoded_text_length_witness :
  Str.len (DecodedText.decodeToString
             [mkResult "b" (JS.Fin 0.7%Q) 0; mkResult "a" (JS.Fin 0.4%Q) 1])
  = JS.len [mkResult "b" (JS.Fin 0.7%Q) 0; mkResult "a" (JS.Fin 0.4%Q) 1].
Proof.
  apply (decoded_text_length [0.1; 0.7; 0.2; 0.4; 0.4; 0.3]%Q 3
           (Some 0.25%Q) (HuntbotDecoder.new None)).
  left. reflexivity.
Defined.

(** ** What the bounding-box decoder returns *)

Lemma decode_box_sound (array : list Q) (config : YOLODecoder.YOLODecoderConfig)
    (i : Z) (r : DecodedResult YOLODecoder.BoundingBox) :
  r ∈ YOLODecoder.decode_box array config i [] ->
  let objectness := JS.to_num (JS.get array (i * YOLODecoder.stride config + 4)) in
  let threshold := JS.to_num (YOLODecoder.minConfidence config) in
  position r = i
  /\ JS.lt objectness threshold = false
  /\ JS.ge (confidence r) threshold = true
  /\ YOLODecoder.confidence (value r) = confidence r
  /\ confidence r
     = JS.mul objectness
         (fst (YOLODecoder.best_class array (i * YOLODecoder.stride config)
                 (YOLODecoder.numClasses config) 0 JS.NegInf (-1))).
Proof.
  unfold YOLODecoder.decode_box.
  destruct (JS.lt _ _) eqn:Hlt; [by intros ?%elem_of_nil|].
  destruct (YOLODecoder.best_class _ _ _ _ _ _) as [maxClassProb maxClassIdx].
  destruct (JS.ge _ _) eqn:Hge; [|by intros ?%elem_of_nil].
  by intros ->%list_elem_of_singleton.
Qed.

(** X6.  Every result the bounding-box decoder returns comes from a record
    that starts inside the buffer, whose objectness is not below
    [minConfidence]; its confidence is the product of that objectness and
    the best class probability, is at least [minConfidence], and is the
    confidence stored in its box. *)
Theorem box_results_sound (defaultConfig : YOLODecoder.YOLODecoderConfig)
    (array : list Q) (config : option YOLODecoder.YOLODecoderConfig)
    (results : list (DecodedResult YOLODecoder.BoundingBox))
    (r : DecodedResult YOLODecoder.BoundingBox) :
  YOLODecoder.decode defaultConfig array config = Some results ->
  r ∈ results ->
  let finalConfig := YOLODecoder.merge defaultConfig config in
  let offset := position r * YOLODecoder.stride finalConfig in
  let objectness := JS.to_num (JS.get array (offset + 4)) in
  let threshold := JS.to_num (YOLODecoder.minConfidence finalConfig) in
  0 <= offset < JS.len array
  /\ JS.lt objectness threshold = false
  /\ JS.ge (confidence r) threshold = true
  /\ YOLODecoder.confidence (value r) = confidence r
  /\ confidence r
     = JS.mul objectness
         (fst (YOLODecoder.best_class array offset
                 (YOLODecoder.numClasses finalConfig) 0 JS.NegInf (-1))).
Proof.
  intros Hdecode Hr. cbn zeta.
  set (finalConfig := YOLODecoder.merge defaultConfig config).
  rewrite decode_unroll in Hdecode. injection Hdecode as <-.
  fold finalConfig in Hr.
  apply list_elem_of_In, in_flat_map in Hr as (j & Hj%in_seq & Hr%list_elem_of_In).
  destruct (decode_box_sound array finalConfig (Z.of_nat j) r Hr)
    as (Hpos & Hlt & Hge & Hbox & Hconf).
  pose proof (stride_pos finalConfig).
  pose proof (turns_spec (JS.len array) (YOLODecoder.stride finalConfig) j
                ltac:(unfold JS.len; lia) ltac:(done)) as Hturn.
  destruct (Nat.ltb_spec j (Aux.turns (JS.len array) (YOLODecoder.stride finalConfig)));
    [|lia].
  apply Z.ltb_lt in Hturn.
  rewrite Hpos. split_and!; try done; lia.
Qed.

Lemma box_results_sound_witness :
  let r :=
    mkResult
      {| YOLODecoder.x := Some 10%Q; YOLODecoder.y := Some 20%Q;
         YOLODecoder.width := Some 30%Q; YOLODecoder.height := Some 40%Q;
         YOLODecoder.class := "bird";
         YOLODecoder.confidence := JS.Fin 0.72%Q |}
      (JS.Fin 0.72%Q) 0 in
  let array := [10; 20; 30; 40; 0.9; 0.1; 0.05; 0.8]%Q in
  0 <= 0 * 8 < 8
  /\ JS.lt (JS.to_num (JS.get array (0 * 8 + 4))) (JS.Fin 0.25%Q) = false
  /\ JS.ge (confidence r) (JS.Fin 0.25%Q) = true
  /\ YOLODecoder.confidence (value r) = confidence r
  /\ confidence r
     = JS.mul (JS.to_num (JS.get array (0 * 8 + 4)))
         (fst (YOLODecoder.best_class array (0 * 8) 3 0 JS.NegInf (-1))).
Proof.
  apply (box_results_sound
           (YOLODecoder.new
              {| YOLODecoder.numClasses := 3;
                 YOLODecoder.classNames := ["cat"; "dog"; "bird"];
                 YOLODecoder.iouThreshold := None;
                 YOLODecoder.minConfidence := Some 0.25%Q |})
           [10; 20; 30; 40; 0.9; 0.1; 0.05; 0.8]%Q None
           [mkResult
              {| YOLODecoder.x := Some 10%Q; YOLODecoder.y := Some 20%Q;
                 YOLODecoder.width := Some 30%Q; YOLODecoder.height := Some 40%Q;
                 YOLODecoder.class := "bird";
                 YOLODecoder.confidence := JS.Fin 0.72%Q |}
              (JS.Fin 0.72%Q) 0]
           (mkResult
              {| YOLODecoder.x := Some 10%Q; YOLODecoder.y := Some 20%Q;
                 YOLODecoder.width := Some 30%Q; YOLODecoder.height := Some 40%Q;
                 YOLODecoder.class := "bird";
                 YOLODecoder.confidence := JS.Fin 0.72%Q |}
              (JS.Fin 0.72%Q) 0)).
  - reflexivity.
  - left.
Defined.

(** ** The shape of the binarized array *)

Lemma pixel_value_binary (config : ImagePreprocessor.PreprocessConfig)
    (buffer : list Byte.byte) (channels : Z) (p : nat) :
  Aux.pixel_value config buffer channels p = 0%Q
  \/ Aux.pixel_value config buffer channels p = 1%Q.
Proof. unfold Aux.pixel_value. destruct (JS.Qltb _ _); auto. Qed.

(** X7.  For a positive number of channels and a target size that is not
    negative (a typed array of negative length cannot be constructed),
    [normalize] returns an array of exactly
    [width * height * config.channels] values, each 0 or 1, and the value
    of a pixel that starts past the end of the buffer is 0. *)
Theorem binarize_output_shape (config : ImagePreprocessor.PreprocessConfig)
    (buffer : list Byte.byte) (width height channels : Z) :
  0 < channels ->
  0 <= width * height * ImagePreprocessor.channels config ->
  exists normalized,
    ImagePreprocessor.normalize config buffer width height channels
    = Some normalized
    /\ length normalized
       = Z.to_nat (width * height * ImagePreprocessor.channels config)
    /\ forall (p : nat) (v : Q),
         normalized !! p = Some v ->
         (v = 0%Q \/ v = 1%Q)
         /\ (JS.len buffer <= Z.of_nat p * channels -> v = 0%Q).
Proof.
  intros Hch _.
  set (targetSize := width * height * ImagePreprocessor.channels config).
  destruct (pixels_run config buffer channels targetSize Hch
              (Aux.turns (JS.len buffer) channels) (S (length buffer)) 0
              (replicate (Z.to_nat targetSize) 0%Q))
    as (normalized & Hrun & Hlen & Hinv).
  - done.
  - pose proof (turns_le (JS.len buffer) channels ltac:(unfold JS.len; lia) Hch).
    unfold JS.len in *. lia.
  - split; [by rewrite length_replicate|].
    intros q Hq. rewrite lookup_replicate_2 by lia. done.
  - exists normalized. split_and!; [exact Hrun|exact Hlen|].
    intros p v Hv.
    assert (Z.of_nat p < targetSize) as Hp
      by (apply lookup_lt_Some in Hv; lia).
    rewrite (Hinv p Hp) in Hv. injection Hv as <-.
    pose proof (turns_spec (JS.len buffer) channels p
                  ltac:(unfold JS.len; lia) Hch) as Hspec.
    destruct (Nat.ltb_spec p (Aux.turns (JS.len buffer) channels)).
    + split; [apply pixel_value_binary|]. apply Z.ltb_lt in Hspec. lia.
    + split; [by left|done].
Qed.

Lemma binarize_output_shape_witness :
  exists normalized,
    ImagePreprocessor.normalize
      {| ImagePreprocessor.width := 3; ImagePreprocessor.height := 1;
         ImagePreprocessor.channels := 1; ImagePreprocessor.threshold := 254%Q;
         ImagePreprocessor.backgroundColor :=
           ImagePreprocessor.backgroundColor ImagePreprocessor.DEFAULTS |}
      [Byte.x00; Byte.x00; Byte.x00; Byte.x0a;
       Byte.x00; Byte.x00; Byte.x00; Byte.xff] 3 1 4
    = Some normalized
    /\ length normalized = Z.to_nat (3 * 1 * 1)
    /\ forall (p : nat) (v : Q),
         normalized !! p = Some v ->
         (v = 0%Q \/ v = 1%Q) /\ (8 <= Z.of_nat p * 4 -> v = 0%Q).
Proof.
  apply (binarize_output_shape
           {| ImagePreprocessor.width := 3; ImagePreprocessor.height := 1;
              ImagePreprocessor.channels := 1; ImagePreprocessor.threshold := 254%Q;
              ImagePreprocessor.backgroundColor :=
                ImagePreprocessor.backgroundColor ImagePreprocessor.DEFAULTS |}
           [Byte.x00; Byte.x00; Byte.x00; Byte.x0a;
            Byte.x00; Byte.x00; Byte.x00; Byte.xff] 3 1 4); cbn; lia.
Defined.

(** ** Crop and pad geometry *)

(** X8.  The region [extractCenterRegion] asks for lies inside the image:
    it is as wide and high as the smaller of image and target, starts at
    a corner that is not negative, and is centred (the margin left after
    it is the margin before it, or one more). *)
Theorem extract_region_centred (config : ImagePreprocessor.PreprocessConfig)
    (imgWidth imgHeight : Z) :
  let region := ImageGeometry.extractCenterRegion config imgWidth imgHeight in
  ImageGeometry.width region = Z.min imgWidth (ImagePreprocessor.width config)
  /\ ImageGeometry.height region
     = Z.min imgHeight (ImagePreprocessor.height config)
  /\ 0 <= ImageGeometry.left region
  /\ 0 <= ImageGeometry.top region
  /\ 0 <= imgWidth - (ImageGeometry.left region + ImageGeometry.width region)
          - ImageGeometry.left region <= 1
  /\ 0 <= imgHeight - (ImageGeometry.top region + ImageGeometry.height region)
          - ImageGeometry.top region <= 1.
Proof.
  cbn.
  pose proof (Z.div_mod (imgWidth - Z.min imgWidth (ImagePreprocessor.width config)) 2
                ltac:(done)).
  pose proof (Z.mod_pos_bound
                (imgWidth - Z.min imgWidth (ImagePreprocessor.width config)) 2
                ltac:(done)).
  pose proof (Z.div_mod (imgHeight - Z.min imgHeight (ImagePreprocessor.height config)) 2
                ltac:(done)).
  pose proof (Z.mod_pos_bound
                (imgHeight - Z.min imgHeight (ImagePreprocessor.height config)) 2
                ltac:(done)).
  lia.
Qed.

(** X9.  [padImage] never asks for a negative padding.  A deficit that is
    not negative is split exactly between the two sides, the right and
    bottom sides taking the odd pixel; a negative deficit is padded by
    nothing. *)
Theorem pad_image_splits_deficit (paddingX paddingY : Z) :
  let padding := ImageGeometry.padImage paddingX paddingY in
  0 <= ImageGeometry.padLeft padding /\ 0 <= ImageGeometry.padRight padding
  /\ 0 <= ImageGeometry.padTop padding /\ 0 <= ImageGeometry.padBottom padding
  /\ (0 <= paddingX ->
        ImageGeometry.padLeft padding + ImageGeometry.padRight padding = paddingX
        /\ 0 <= ImageGeometry.padRight padding - ImageGeometry.padLeft padding <= 1)
  /\ (0 <= paddingY ->
        ImageGeometry.padTop padding + ImageGeometry.padBottom padding = paddingY
        /\ 0 <= ImageGeometry.padBottom padding - ImageGeometry.padTop padding <= 1)
  /\ (paddingX < 0 ->
        ImageGeometry.padLeft padding = 0 /\ ImageGeometry.padRight padding = 0)
  /\ (paddingY < 0 ->
        ImageGeometry.padTop padding = 0 /\ ImageGeometry.padBottom padding = 0).
Proof.
  cbn.
  pose proof (Z.div_mod paddingX 2 ltac:(done)).
  pose proof (Z.mod_pos_bound paddingX 2 ltac:(done)).
  pose proof (Z.div_mod paddingY 2 ltac:(done)).
  pose proof (Z.mod_pos_bound paddingY 2 ltac:(done)).
  lia.
Qed.

Lemma pad_image_splits_deficit_witness :
  let padding := ImageGeometry.padImage 7 (-3) in
  ImageGeometry.padLeft padding + ImageGeometry.padRight padding = 7
  /\ 0 <= ImageGeometry.padRight padding - ImageGeometry.padLeft padding <= 1.
Proof.
  apply (pad_image_splits_deficit 7 (-3)). lia.
Defined.

(** X10.  Cropping and then padding by what is missing reaches the target
    size exactly: for an image of any size, the width of the
    region of [extractCenterRegion] plus the two horizontal paddings
    [padImage] gives for the missing width is the configured width, and
    likewise for the height. *)
Theorem crop_then_pad_reaches_target (config : ImagePreprocessor.PreprocessConfig)
    (imgWidth imgHeight : Z) :
  let region := ImageGeometry.extractCenterRegion config imgWidth imgHeight in
  let padding :=
    ImageGeometry.padImage
      (ImagePreprocessor.width config - ImageGeometry.width region)
      (ImagePreprocessor.height config - ImageGeometry.height region) in
  ImageGeometry.padLeft padding + ImageGeometry.width region
    + ImageGeometry.padRight padding = ImagePreprocessor.width config
  /\ ImageGeometry.padTop padding + ImageGeometry.height region
       + ImageGeometry.padBottom padding = ImagePreprocessor.height config.
Proof.
  cbn.
  set (dx := ImagePreprocessor.width config
             - Z.min imgWidth (ImagePreprocessor.width config)).
  set (dy := ImagePreprocessor.height config
             - Z.min imgHeight (ImagePreprocessor.height config)).
  pose proof (Z.div_mod dx 2 ltac:(done)).
  pose proof (Z.mod_pos_bound dx 2 ltac:(done)).
  pose proof (Z.div_mod dy 2 ltac:(done)).
  pose proof (Z.mod_pos_bound dy 2 ltac:(done)).
  lia.
Qed.

(** ** The normalizing preprocessor *)





(** ** The dependency container *)

(** X12.  What [register] stores under a token, [resolve] returns for that
    token when it is truthy, whatever was registered before; a falsy
    instance, like no registration at all, makes [resolve] throw the
    error that names the token; registering under another token changes
    nothing for this one. *)
Theorem container_register_resolve (token other : Container.symbol)
    (instance : Container.any) (registry : gmap positive Container.any) :
  let missing :=
    inl ("No instance found for token: Symbol("
           +:+ Container.description token +:+ ")") in
  (Container.truthy instance = true ->
     Container.resolve token (Container.register token instance registry)
     = inr instance)
  /\ (Container.truthy instance = false ->
      Container.resolve token (Container.register token instance registry)
      = missing)
  /\ (registry !! Container.id token = None ->
      Container.resolve token registry = missing)
  /\ (Container.id other <> Container.id token ->
      Container.resolve token (Container.register other instance registry)
      = Container.resolve token registry).
Proof.
  unfold Container.resolve, Container.register, Container.toString. cbn zeta.
  split_and!.
  - intros Htruthy. rewrite lookup_insert_eq. cbn. by rewrite Htruthy.
  - intros Hfalsy. rewrite lookup_insert_eq. cbn. by rewrite Hfalsy.
  - by intros ->.
  - intros Hne. by rewrite lookup_insert_ne.
Qed.

Lemma container_register_resolve_witness :
  Container.resolve {| Container.id := 1; Container.description := "Logger" |}
    (Container.register
       {| Container.id := 1; Container.description := "Logger" |}
       (Container.Number (JS.Fin 0)) ∅)
  = inl "No instance found for token: Symbol(Logger)".
Proof.
  exact (proj1 (proj2 (container_register_resolve
                         {| Container.id := 1; Container.description := "Logger" |}
                         {| Container.id := 2; Container.description := "DB" |}
                         (Container.Number (JS.Fin 0)) ∅))
               eq_refl).
Defined.

(** ** The command logger's text helpers *)

Lemma len_append (s1 s2 : string) : Str.len (s1 +:+ s2) = Str.len s1 + Str.len s2.
Proof. unfold Str.len. rewrite length_append. lia. Qed.

Lemma len_substring0 (text : string) (n : Z) :
  Str.len (Str.substring0 text n) = Z.min (Z.max 0 n) (Str.len text).
Proof. unfold Str.len, Str.substring0. rewrite length_substring0. lia. Qed.

Lemma len_nonneg (s : string) : 0 <= Str.len s.
Proof. unfold Str.len. lia. Qed.

(** The length of what [truncate] returns. *)
Lemma truncate_length (text : string) (maxLength : Z)
    (prefix suffix : option string) :
  let available :=
    maxLength - Str.len (default "```" prefix) - Str.len (default "```" suffix) in
  Str.len (CommandLogger.truncate text maxLength prefix suffix)
  = Str.len (default "```" prefix) + Str.len (default "```" suffix)
    + (if Str.len text <=? available then Str.len text
       else Z.max 0 (available - 3) + 3).
Proof.
  cbn zeta. unfold CommandLogger.truncate.
  pose proof (len_nonneg text).
  destruct (Z.leb_spec (Str.len text)
              (maxLength - Str.len (default "```" prefix)
               - Str.len (default "```" suffix))).
  - rewrite !len_append. lia.
  - rewrite !len_append, len_substring0.
    change (Str.len "...") with 3. lia.
Qed.

(** X13.  When the limit leaves room for the fences and the ellipsis,
    [truncate] never returns more than [maxLength] characters: a text
    that fits is returned whole between prefix and suffix, a longer one
    is cut so that the result has exactly [maxLength] characters and ends
    with ["..."] and the suffix. *)
Theorem truncate_within_limit (text : string) (maxLength : Z)
    (prefix suffix : option string) :
  let before := default "```" prefix in
  let after := default "```" suffix in
  let available := maxLength - Str.len before - Str.len after in
  3 <= available ->
  Str.len (CommandLogger.truncate text maxLength prefix suffix) <= maxLength
  /\ (Str.len text <= available ->
      CommandLogger.truncate text maxLength prefix suffix
      = before +:+ text +:+ after)
  /\ (available < Str.len text ->
      Str.len (CommandLogger.truncate text maxLength prefix suffix) = maxLength
      /\ CommandLogger.truncate text maxLength prefix suffix
         = before +:+ Str.substring0 text (available - 3) +:+ "..." +:+ after).
Proof.
  cbn zeta. intros Hroom.
  pose proof (truncate_length text maxLength prefix suffix) as Hlen.
  cbn zeta in Hlen. unfold CommandLogger.truncate in *.
  destruct (Z.leb_spec (Str.len text)
              (maxLength - Str.len (default "```" prefix)
               - Str.len (default "```" suffix)));
    (split_and!; [lia|intros; done || lia|intros; (split; [lia|done]) || lia]).
Qed.

Lemma truncate_within_limit_witness :
  Str.len (CommandLogger.truncate "abcdefghijklmnopqrstuvwxyz" 20 None None) = 20
  /\ CommandLogger.truncate "abcdefghijklmnopqrstuvwxyz" 20 None None
     = "```" +:+ Str.substring0 "abcdefghijklmnopqrstuvwxyz" (14 - 3)
         +:+ "..." +:+ "```".
Proof.
  apply (truncate_within_limit "abcdefghijklmnopqrstuvwxyz" 20 None None);
    vm_compute; congruence.
Defined.

(** X14.  When the limit leaves fewer than three characters between the
    fences, a text that does not fit is replaced by the bare ellipsis and
    the result is longer than [maxLength]: [truncate] then breaks the
    limit it is given. *)
Theorem truncate_exceeds_small_limit (text : string) (maxLength : Z)
    (prefix suffix : option string) :
  let before := default "```" prefix in
  let after := default "```" suffix in
  let available := maxLength - Str.len before - Str.len after in
  available < 3 ->
  available < Str.len text ->
  CommandLogger.truncate text maxLength prefix suffix
  = before +:+ "" +:+ "..." +:+ after
  /\ maxLength < Str.len (CommandLogger.truncate text maxLength prefix suffix).
Proof.
  cbn zeta. intros Hsmall Hlong.
  pose proof (truncate_length text maxLength prefix suffix) as Hlen.
  cbn zeta in Hlen. unfold CommandLogger.truncate in *.
  destruct (Z.leb_spec (Str.len text)
              (maxLength - Str.len (default "```" prefix)
               - Str.len (default "```" suffix))); [lia|].
  split; [|lia]. unfold Str.substring0.
  replace (Z.to_nat _) with O by lia. by destruct text.
Qed.

Lemma truncate_exceeds_small_limit_witness :
  CommandLogger.truncate "password" 8 None None = "```" +:+ "" +:+ "..." +:+ "```"
  /\ 8 < Str.len (CommandLogger.truncate "password" 8 None None).
Proof.
  apply (truncate_exceeds_small_limit "password" 8 None None);
    vm_compute; reflexivity.
Defined.

Lemma append_assoc (s1 s2 s3 : string) :
  (s1 +:+ s2) +:+ s3 = s1 +:+ (s2 +:+ s3).
Proof.
  induction s1 as [|c s1 IH]; [done|].
  change (String c ((s1 +:+ s2) +:+ s3) = String c (s1 +:+ (s2 +:+ s3))).
  by f_equal.
Qed.

Lemma truncate_field_fenced (text : string) :
  Str.len (CommandLogger.truncate text CommandLogger.MAX_FIELD_LENGTH None None)
    <= 1024
  /\ exists middle,
       CommandLogger.truncate text CommandLogger.MAX_FIELD_LENGTH None None
       = "```" +:+ middle +:+ "```".
Proof.
  pose proof (truncate_length text CommandLogger.MAX_FIELD_LENGTH None None)
    as Hlen.
  cbn zeta in Hlen. unfold CommandLogger.truncate in *.
  cbn [default from_option id] in *. change (Str.len "```") with 3 in *.
  unfold CommandLogger.MAX_FIELD_LENGTH in *.
  destruct (Z.leb_spec (Str.len text) (1024 - 3 - 3)).
  - split; [lia|]. by eexists.
  - split; [lia|]. eexists (_ +:+ "..."). by rewrite append_assoc.
Qed.

(** X15.  [formatReplyMessage] never returns the empty string.  A reply
    with content, or without content but with an embed, is rendered
    between code fences in at most 1024 characters; an embed without
    title, description and fields is rendered as the two bare fences, not
    as the empty-response text; a reply with neither shows the number of
    its attachments, or the empty-response text when it has none. *)
Theorem format_reply_cases (reply : CommandLogger.Message) :
  CommandLogger.formatReplyMessage reply <> ""
  /\ (Str.truthy (CommandLogger.content reply) = true
      \/ CommandLogger.embeds reply <> [] ->
      Str.len (CommandLogger.formatReplyMessage reply) <= 1024
      /\ exists text,
           CommandLogger.formatReplyMessage reply = "```" +:+ text +:+ "```")
  /\ (CommandLogger.content reply = "" ->
      forall embed rest,
        CommandLogger.embeds reply = embed :: rest ->
        CommandLogger.present (CommandLogger.title embed) = None ->
        CommandLogger.present (CommandLogger.description embed) = None ->
        CommandLogger.fields embed = [] ->
        CommandLogger.formatReplyMessage reply = "``````")
  /\ (CommandLogger.content reply = "" ->
      CommandLogger.embeds reply = [] ->
      CommandLogger.formatReplyMessage reply
      = if (0 <? CommandLogger.attachments reply)%nat
        then "[" +:+ JS.show (Z.of_nat (CommandLogger.attachments reply))
               +:+ " attachment(s)]"
        else "*(Empty response)*").
Proof.
  unfold CommandLogger.formatReplyMessage. split_and!.
  - destruct (Str.truthy (CommandLogger.content reply)).
    { destruct (truncate_field_fenced (CommandLogger.content reply))
        as (_ & middle & ->). done. }
    destruct (CommandLogger.embeds reply) as [|embed rest].
    + by destruct (0 <? CommandLogger.attachments reply)%nat.
    + destruct (truncate_field_fenced
                  (Str.join Str.newline (CommandLogger.embed_parts embed)))
        as (_ & middle & ->). done.
  - intros Hcases.
    destruct (Str.truthy (CommandLogger.content reply)) eqn:Hcontent;
      [apply truncate_field_fenced|].
    destruct Hcases as [|Hembeds]; [done|].
    destruct (CommandLogger.embeds reply) as [|embed rest]; [done|].
    apply truncate_field_fenced.
  - intros Hcontent embed rest Hembeds Htitle Hdescription Hfields.
    rewrite Hcontent, Hembeds. cbn [Str.truthy String.eqb negb].
    unfold CommandLogger.embed_parts.
    by rewrite Htitle, Hdescription, Hfields.
  - intros Hcontent Hembeds. by rewrite Hcontent, Hembeds.
Qed.

Lemma format_reply_cases_witness :
  Str.len
    (CommandLogger.formatReplyMessage
       {| CommandLogger.content := "";
          CommandLogger.embeds :=
            [{| CommandLogger.title := Some "Result";
                CommandLogger.description := None;
                CommandLogger.fields :=
                  [{| CommandLogger.name := "word";
                      CommandLogger.value := "abcde" |}] |}];
          CommandLogger.attachments := 0 |}) <= 1024
  /\ exists text,
       CommandLogger.formatReplyMessage
         {| CommandLogger.content := "";
            CommandLogger.embeds :=
              [{| CommandLogger.title := Some "Result";
                  CommandLogger.description := None;
                  CommandLogger.fields :=
                    [{| CommandLogger.name := "word";
                        CommandLogger.value := "abcde" |}] |}];
            CommandLogger.attachments := 0 |}
       = "```" +:+ text +:+ "```".
Proof.
  refine (proj1 (proj2 (format_reply_cases _)) _).
  right. discriminate.
Defined.

(** ** The singleton *)

(** X16.  [getInstance] constructs the service once: on a process without
    instance whose container holds a logger, the first call constructs a
    service that is not initialized, with the configuration merged from
    its argument, and every later call returns that same service and
    ignores its argument; without a logger in the container the
    constructor throws the container's error and no instance is set. *)
Theorem get_instance_once (Logger : Container.symbol) (defaultPath : string)
    (first second : option HuntbotModelService.PartialModelConfig)
    (w : HuntbotModelService.world) :
  HuntbotModelService.instance w = None ->
  (Container.truthy
     (default Container.Undefined
        (HuntbotModelService.registry w !! Container.id Logger)) = true ->
   exists w' ref object,
     HuntbotModelService.getInstance Logger defaultPath first w = inr (w', ref)
     /\ HuntbotModelService.getInstance Logger defaultPath second w'
        = inr (w', ref)
     /\ HuntbotModelService.services w' !! ref = Some object
     /\ HuntbotModelService.config object
        = HuntbotModelService.finalConfig defaultPath first
     /\ ModelService.isInitialized (HuntbotModelService.lifecycle object) = false
     /\ forall old, (old < length (HuntbotModelService.services w))%nat ->
          HuntbotModelService.services w' !! old
          = HuntbotModelService.services w !! old)
  /\ (Container.truthy
        (default Container.Undefined
           (HuntbotModelService.registry w !! Container.id Logger)) = false ->
      HuntbotModelService.getInstance Logger defaultPath first w
      = inl ("No instance found for token: " +:+ Container.toString Logger)).
Proof.
  intros Hnone. unfold HuntbotModelService.getInstance at 1 3.
  unfold HuntbotModelService.construct, Container.resolve.
  rewrite Hnone. split; intros Hlogger; rewrite Hlogger; cbn [negb]; [|done].
  eexists _, _, _. split_and!.
  - done.
  - done.
  - cbn. by rewrite lookup_app_r, Nat.sub_diag by lia.
  - done.
  - done.
  - intros old Hold. cbn. by rewrite lookup_app_l.
Qed.

Lemma get_instance_once_witness :
  exists w' ref object,
    HuntbotModelService.getInstance
      {| Container.id := 1; Container.description := "Logger" |} "huntbot.onnx"
      (Some {| HuntbotModelService.modelPath_opt := None;
               HuntbotModelService.preprocessor_opt := None;
               HuntbotModelService.decoder_opt :=
                 Some {| HuntbotDecoder.depth := 36;
                         HuntbotDecoder.minConfidence := None |} |})
      {| HuntbotModelService.registry := {[ 1%positive := Container.Object 0 ]};
         HuntbotModelService.instance := None;
         HuntbotModelService.services := [] |}
    = inr (w', ref)
    /\ HuntbotModelService.getInstance
         {| Container.id := 1; Container.description := "Logger" |} "huntbot.onnx"
         None w'
       = inr (w', ref)
    /\ HuntbotModelService.services w' !! ref = Some object
    /\ HuntbotModelService.config object
       = HuntbotModelService.finalConfig "huntbot.onnx"
           (Some {| HuntbotModelService.modelPath_opt := None;
                    HuntbotModelService.preprocessor_opt := None;
                    HuntbotModelService.decoder_opt :=
                      Some {| HuntbotDecoder.depth := 36;
                              HuntbotDecoder.minConfidence := None |} |})
    /\ ModelService.isInitialized (HuntbotModelService.lifecycle object) = false
    /\ forall old, (old < 0)%nat ->
         HuntbotModelService.services w' !! old = @nil HuntbotModelService.service !! old.
Proof.
  refine (proj1 (get_instance_once
                   {| Container.id := 1; Container.description := "Logger" |}
                   "huntbot.onnx" _ None
                   {| HuntbotModelService.registry :=
                        {[ 1%positive := Container.Object 0 ]};
                      HuntbotModelService.instance := None;
                      HuntbotModelService.services := [] |} eq_refl) _).
  vm_compute. reflexivity.
Defined.

(** X17.  [reset()] only drops the reference.  The next [getInstance]
    constructs a second service, not initialized, under a new reference,
    while the first service keeps its state, session included: nothing
    was released. *)
Theorem reset_leaves_service (Logger : Container.symbol) (defaultPath : string)
    (config : option HuntbotModelService.PartialModelConfig)
    (w : HuntbotModelService.world) (ref : nat)
    (object : HuntbotModelService.service) :
  HuntbotModelService.instance w = Some ref ->
  HuntbotModelService.services w !! ref = Some object ->
  Container.truthy
    (default Container.Undefined
       (HuntbotModelService.registry w !! Container.id Logger)) = true ->
  exists w' ref' object',
    HuntbotModelService.getInstance Logger defaultPath config
      (HuntbotModelService.reset w) = inr (w', ref')
    /\ ref' <> ref
    /\ HuntbotModelService.services w' !! ref' = Some object'
    /\ ModelService.isInitialized (HuntbotModelService.lifecycle object') = false
    /\ HuntbotModelService.services w' !! ref = Some object.
Proof.
  intros Hinstance Hobject Hlogger.
  unfold HuntbotModelService.getInstance, HuntbotModelService.construct,
    Container.resolve.
  cbn [HuntbotModelService.reset HuntbotModelService.instance
       HuntbotModelService.registry HuntbotModelService.services].
  rewrite Hlogger. cbn [negb].
  pose proof (lookup_lt_Some _ _ _ Hobject) as Hlt.
  eexists _, _, _. split_and!.
  - done.
  - lia.
  - cbn. by rewrite lookup_app_r, Nat.sub_diag by lia.
  - done.
  - cbn. by rewrite lookup_app_l.
Qed.

Lemma reset_leaves_service_witness :
  let ready :=
    {| HuntbotModelService.config := HuntbotModelService.defaultConfig "huntbot.onnx";
       HuntbotModelService.decoderConfig := HuntbotDecoder.new None;
       HuntbotModelService.lifecycle :=
         ModelService.run ModelService.fresh
           [ModelService.CallInitialize; ModelService.CreateResolved 0 7%nat] |} in
  exists w' ref' object',
    HuntbotModelService.getInstance
      {| Container.id := 1; Container.description := "Logger" |} "huntbot.onnx"
      None
      (HuntbotModelService.reset
         {| HuntbotModelService.registry := {[ 1%positive := Container.Object 0 ]};
            HuntbotModelService.instance := Some O;
            HuntbotModelService.services := [ready] |})
    = inr (w', ref')
    /\ ref' <> O
    /\ HuntbotModelService.services w' !! ref' = Some object'
    /\ ModelService.isInitialized (HuntbotModelService.lifecycle object') = false
    /\ HuntbotModelService.services w' !! O = Some ready.
Proof.
  intros ready.
  apply (reset_leaves_service
           {| Container.id := 1; Container.description := "Logger" |}
           "huntbot.onnx" None
           {| HuntbotModelService.registry := {[ 1%positive := Container.Object 0 ]};
              HuntbotModelService.instance := Some O;
              HuntbotModelService.services := [ready] |} O ready);
    [reflexivity | reflexivity | vm_compute; reflexivity].
Defined.

(** ** [dispose] and the load *)

(** X18.  [dispose()] while a load is in flight clears the memo but does
    not cancel the load: the next [initialize()] starts a second load
    while the first is still pending, and when the first load resolves it
    stores its session in the disposed service, which then reports itself
    initialized with no memo. *)
Theorem dispose_during_load (st : ModelService.state) (p : nat)
    (s : ModelService.Session) :
  ModelService.session st = None ->
  ModelService.initPromise st = Some p ->
  ModelService.promises st !! p = Some ModelService.Pending ->
  let disposed := ModelService.dispose st in
  let again := fst (ModelService.initialize disposed) in
  let late := ModelService.create_resolved p s disposed in
  ModelService.initPromise disposed = None
  /\ ModelService.promises disposed !! p = Some ModelService.Pending
  /\ ModelService.starts_load disposed ModelService.CallInitialize
  /\ ModelService.initPromise again = Some (length (ModelService.promises st))
  /\ ModelService.promises again !! p = Some ModelService.Pending
  /\ ModelService.promises again !! length (ModelService.promises st)
     = Some ModelService.Pending
  /\ ModelService.isInitialized late = true
  /\ ModelService.session late = Some s
  /\ ModelService.initPromise late = None.
Proof.
  intros Hsession Hmemo Hpending. cbn zeta.
  assert (ModelService.dispose st
          = {| ModelService.session := None; ModelService.initPromise := None;
               ModelService.promises := ModelService.promises st;
               ModelService.creates := ModelService.creates st;
               ModelService.releasing := ModelService.releasing st |}) as ->
    by (unfold ModelService.dispose; by rewrite Hsession).
  pose proof (lookup_lt_Some _ _ _ Hpending) as Hlt.
  unfold ModelService.starts_load, ModelService.create_resolved,
    ModelService.isInitialized.
  cbn. rewrite Hpending. cbn.
  split_and!; try done.
  - by rewrite lookup_app_l.
  - by rewrite lookup_app_r, Nat.sub_diag by lia.
Qed.

Lemma dispose_during_load_witness :
  let st := fst (ModelService.initialize ModelService.fresh) in
  let disposed := ModelService.dispose st in
  let again := fst (ModelService.initialize disposed) in
  let late := ModelService.create_resolved 0 7%nat disposed in
  ModelService.initPromise disposed = None
  /\ ModelService.promises disposed !! O = Some ModelService.Pending
  /\ ModelService.starts_load disposed ModelService.CallInitialize
  /\ ModelService.initPromise again = Some 1%nat
  /\ ModelService.promises again !! O = Some ModelService.Pending
  /\ ModelService.promises again !! 1%nat = Some ModelService.Pending
  /\ ModelService.isInitialized late = true
  /\ ModelService.session late = Some 7%nat
  /\ ModelService.initPromise late = None.
Proof.
  apply (dispose_during_load (fst (ModelService.initialize ModelService.fresh))
           0 7%nat); reflexivity.
Defined.

(** X19.  [dispose()] of a ready service takes effect only when the
    release has resolved: until then the service still reports itself
    initialized and [predict()] proceeds with the session that is being
    released; afterwards the service is not initialized, its memo is
    cleared, and [predict()] starts a new load. *)
Theorem dispose_ready_service (st : ModelService.state)
    (s : ModelService.Session) :
  ModelService.session st = Some s ->
  let disposing := ModelService.dispose st in
  let disposed := ModelService.release_resolved disposing in
  ModelService.isInitialized disposing = true
  /\ ModelService.predict disposing = (disposing, ModelService.Proceeds s)
  /\ ModelService.isInitialized disposed = false
  /\ ModelService.initPromise disposed = None
  /\ ModelService.starts_load disposed ModelService.CallPredict.
Proof.
  intros Hsession. cbn zeta.
  unfold ModelService.dispose. rewrite Hsession.
  unfold ModelService.starts_load, ModelService.predict, ModelService.initialize,
    ModelService.isInitialized, ModelService.predict_after. cbn.
  done.
Qed.

Lemma dispose_ready_service_witness :
  let st :=
    ModelService.run ModelService.fresh
      [ModelService.CallInitialize; ModelService.CreateResolved 0 7%nat] in
  let disposing := ModelService.dispose st in
  let disposed := ModelService.release_resolved disposing in
  ModelService.isInitialized disposing = true
  /\ ModelService.predict disposing = (disposing, ModelService.Proceeds 7%nat)
  /\ ModelService.isInitialized disposed = false
  /\ ModelService.initPromise disposed = None
  /\ ModelService.starts_load disposed ModelService.CallPredict.
Proof.
  apply (dispose_ready_service
           (ModelService.run ModelService.fresh
              [ModelService.CallInitialize; ModelService.CreateResolved 0 7%nat])
           7%nat).
  reflexivity.
Defined.

(** ** Download and validation *)

Lemma substring_all (s : string) : substring 0 (String.length s) s = s.
Proof. induction s as [|c s IH]; [done|]. cbn. by rewrite IH. Qed.

Lemma substring_append_r (front suffix : string) :
  substring (String.length front) (String.length suffix) (front +:+ suffix)
  = suffix.
Proof.
  induction front as [|c front IH]; [apply substring_all|]. exact IH.
Qed.

Lemma substring_split (n : nat) (s : string) :
  (n <= String.length s)%nat ->
  s = substring 0 n s +:+ substring n (String.length s - n) s.
Proof.
  revert n. induction s as [|c s IH]; intros [|n] Hn; cbn in *; try done.
  - by rewrite substring_all.
  - change (String c s
            = String c (substring 0 n s +:+ substring n (String.length s - n) s)).
    f_equal. apply IH. lia.
Qed.

Lemma endsWith_spec (s suffix : string) :
  Str.endsWith s suffix = true <-> exists front, s = front +:+ suffix.
Proof.
  unfold Str.endsWith. split.
  - destruct (Nat.leb_spec (String.length suffix) (String.length s)); [|done].
    intros Heq%String.eqb_eq.
    exists (substring 0 (String.length s - String.length suffix) s).
    pose proof (substring_split (String.length s - String.length suffix) s
                  ltac:(lia)) as Hsplit.
    replace (String.length s - (String.length s - String.length suffix))%nat
      with (String.length suffix) in Hsplit by lia.
    by rewrite Heq in Hsplit.
  - intros [front ->]. rewrite length_append.
    destruct (Nat.leb_spec (String.length suffix)
                (String.length front + String.length suffix)); [|lia].
    replace (String.length front + String.length suffix - String.length suffix)%nat
      with (String.length front) by lia.
    rewrite substring_append_r. apply String.eqb_refl.
Qed.

(** X20.  [isValidDiscordUrl] accepts a URL exactly when it parses, its
    protocol is ["https:"], and its host is one of the four allowed
    domains or ends with a dot followed by one of them. *)
Theorem valid_discord_url (parseURL : string -> option SolveCommand.URL)
    (urlString : string) :
  SolveCommand.isValidDiscordUrl parseURL urlString = true
  <-> exists url domain,
        parseURL urlString = Some url
        /\ SolveCommand.protocol url = "https:"
        /\ domain ∈ SolveCommand.ALLOWED_DOMAINS
        /\ (SolveCommand.hostname url = domain
            \/ exists sub,
                 SolveCommand.hostname url = sub +:+ "." +:+ domain).
Proof.
  unfold SolveCommand.isValidDiscordUrl.
  destruct (parseURL urlString) as [url|]; [|by split; [|intros (? & ? & ? & _)]].
  destruct (String.eqb_spec (SolveCommand.protocol url) "https:") as [Hp|Hp];
    cbn [negb].
  - rewrite existsb_exists. split.
    + intros (domain & Hin & Hhost). exists url, domain.
      split_and!; [done|done|by apply list_elem_of_In|].
      apply orb_prop in Hhost as [Heq|Hends].
      * left. by apply String.eqb_eq.
      * right. by apply endsWith_spec.
    + intros (url' & domain & [= <-] & _ & Hin & Hhost). exists domain.
      split; [by apply list_elem_of_In|].
      apply orb_true_intro. destruct Hhost as [->|Hsub].
      * left. apply String.eqb_refl.
      * right. by apply endsWith_spec.
  - split; [done|]. by intros (url' & domain & [= <-] & Hp' & _).
Qed.

Lemma read_all_inr (reads : list SolveCommand.read) :
  forall (chunks buffer : list Byte.byte) (totalSize : Z),
    totalSize = JS.len chunks ->
    totalSize <= SolveCommand.MAX_FILE_SIZE ->
    SolveCommand.read_all reads chunks totalSize = inr buffer ->
    buffer = chunks ++ SolveCommand.stream_bytes reads
    /\ JS.len buffer <= SolveCommand.MAX_FILE_SIZE
    /\ forall r, r ∈ reads -> exists value, r = SolveCommand.Chunk value.
Proof.
  induction reads as [|[value|e] reads IH]; intros chunks buffer totalSize Htotal Hmax;
    cbn [SolveCommand.read_all SolveCommand.stream_bytes flat_map].
  - intros [= <-]. rewrite app_nil_r.
    split_and!; [done|lia|by intros r ?%elem_of_nil].
  - destruct (Z.gtb_spec (totalSize + JS.len value) SolveCommand.MAX_FILE_SIZE);
      [done|].
    intros Hrest. apply IH in Hrest as (-> & Hlen & Hchunks).
    + split_and!; [by rewrite app_assoc|done|].
      intros r [->|Hr]%elem_of_cons; [by eexists|by apply Hchunks].
    + unfold JS.len in *. rewrite length_app. lia.
    + lia.
  - done.
Qed.

(** X21.  Whatever the network answers, a buffer that
    [downloadAndValidateImage] returns comes from a URL that
    [isValidDiscordUrl] accepts and from a response that was [ok]; it is
    the concatenation of the chunks read, holds at most 10 MiB, and has
    the signature of an allowed image type. *)
Theorem download_returns_checked_image
    (parseURL : string -> option SolveCommand.URL)
    (fetch : string -> SolveCommand.thrown + SolveCommand.Response)
    (parseInt : string -> JS.num)
    (fileTypeFromBuffer : list Byte.byte -> option string)
    (url : string) (buffer : list Byte.byte) :
  SolveCommand.downloadAndValidateImage parseURL fetch parseInt
    fileTypeFromBuffer url = inr buffer ->
  SolveCommand.isValidDiscordUrl parseURL url = true
  /\ JS.len buffer <= 10485760
  /\ (exists mime,
        fileTypeFromBuffer buffer = Some mime
        /\ mime ∈ SolveCommand.ALLOWED_MIME_TYPES)
  /\ exists response reads,
       fetch url = inr response
       /\ SolveCommand.ok response = true
       /\ SolveCommand.body response = Some reads
       /\ buffer = SolveCommand.stream_bytes reads
       /\ forall r, r ∈ reads -> exists value, r = SolveCommand.Chunk value.
Proof.
  unfold SolveCommand.downloadAndValidateImage.
  destruct (SolveCommand.isValidDiscordUrl parseURL url); cbn [negb]; [|done].
  destruct (SolveCommand.download fetch parseInt fileTypeFromBuffer url)
    as [[name message|]|buffer'] eqn:Hdownload;
    [by destruct (String.eqb name "AbortError")|done|].
  intros [= ->]. unfold SolveCommand.download in Hdownload.
  destruct (fetch url) as [e|response]; [done|].
  destruct (SolveCommand.ok response) eqn:Hok; cbn [negb] in Hdownload; [|done].
  destruct (match CommandLogger.present (SolveCommand.contentLength response) with
            | Some _ => _ | None => _ end); [done|].
  destruct (match CommandLogger.present (SolveCommand.contentType response) with
            | Some _ => _ | None => _ end); [done|].
  destruct (SolveCommand.body response) as [reads|] eqn:Hbody; [|done].
  destruct (SolveCommand.read_all reads [] 0) as [e|read] eqn:Hread; [done|].
  destruct (SolveCommand.isValidImageBuffer fileTypeFromBuffer read) eqn:Hvalid;
    cbn [negb] in Hdownload; [|done].
  injection Hdownload as ->.
  apply read_all_inr in Hread as (Hbytes & Hlen & Hchunks);
    [|done|by vm_compute].
  split_and!; [done|exact Hlen| |].
  - unfold SolveCommand.isValidImageBuffer in Hvalid.
    destruct (fileTypeFromBuffer buffer) as [mime|]; [|done].
    exists mime. split; [done|].
    unfold Str.includes in Hvalid. apply existsb_exists in Hvalid
      as (allowed & Hin & ->%String.eqb_eq).
    by apply list_elem_of_In.
  - by exists response, reads.
Qed.

Lemma download_returns_checked_image_witness :
  let parseURL := fun _ : string =>
    Some {| SolveCommand.protocol := "https:";
            SolveCommand.hostname := "cdn.discordapp.com" |} in
  let fetch : string -> SolveCommand.thrown + SolveCommand.Response :=
    fun _ =>
    inr {| SolveCommand.ok := true; SolveCommand.status := 200;
           SolveCommand.statusText := "OK";
           SolveCommand.contentLength := Some "4";
           SolveCommand.contentType := Some "image/png";
           SolveCommand.body :=
             Some [SolveCommand.Chunk [Byte.x89; Byte.x50];
                   SolveCommand.Chunk [Byte.x4e; Byte.x47]] |} in
  let parseInt := fun _ : string => JS.Fin 4 in
  let fileTypeFromBuffer := fun _ : list Byte.byte => Some "image/png" in
  SolveCommand.isValidDiscordUrl parseURL "https://cdn.discordapp.com/a.png" = true
  /\ JS.len [Byte.x89; Byte.x50; Byte.x4e; Byte.x47] <= 10485760
  /\ (exists mime,
        fileTypeFromBuffer [Byte.x89; Byte.x50; Byte.x4e; Byte.x47] = Some mime
        /\ mime ∈ SolveCommand.ALLOWED_MIME_TYPES)
  /\ exists response reads,
       fetch "https://cdn.discordapp.com/a.png" = inr response
       /\ SolveCommand.ok response = true
       /\ SolveCommand.body response = Some reads
       /\ [Byte.x89; Byte.x50; Byte.x4e; Byte.x47] = SolveCommand.stream_bytes reads
       /\ forall r, r ∈ reads -> exists value, r = SolveCommand.Chunk value.
Proof.
  intros parseURL fetch parseInt fileTypeFromBuffer.
  apply (download_returns_checked_image parseURL fetch parseInt
           fileTypeFromBuffer "https://cdn.discordapp.com/a.png"
           [Byte.x89; Byte.x50; Byte.x4e; Byte.x47]).
  reflexivity.
Defined.

Lemma read_all_oversize (reads : list SolveCommand.read) :
  forall (chunks : list Byte.byte) (totalSize : Z),
    (forall r, r ∈ reads -> exists value, r = SolveCommand.Chunk value) ->
    SolveCommand.MAX_FILE_SIZE
      < totalSize + JS.len (SolveCommand.stream_bytes reads) ->
    totalSize <= SolveCommand.MAX_FILE_SIZE ->
    SolveCommand.read_all reads chunks totalSize
    = inl (SolveCommand.Error
             ("File exceeds maximum size of "
                +:+ JS.show SolveCommand.MAX_FILE_SIZE +:+ " bytes")).
Proof.
  induction reads as [|r reads IH]; intros chunks totalSize Hchunks Hover Hmax.
  - unfold SolveCommand.stream_bytes, JS.len in Hover.
    cbn [flat_map length] in Hover. lia.
  - destruct (Hchunks r ltac:(left)) as [value ->].
    cbn [SolveCommand.read_all SolveCommand.stream_bytes flat_map] in *.
    destruct (Z.gtb_spec (totalSize + JS.len value) SolveCommand.MAX_FILE_SIZE);
      [done|].
    apply IH; [intros; apply Hchunks; by right| |lia].
    unfold JS.len in *. rewrite length_app in Hover.
    unfold SolveCommand.stream_bytes. lia.
Qed.

(** X22.  The size limit does not rest on the [Content-Length] header:
    when the response is [ok], passes the header checks (here: no
    [Content-Length], no [Content-Type]) and streams more than 10 MiB in
    chunks, [downloadAndValidateImage] fails with the size error. *)
Theorem download_refuses_oversize
    (parseURL : string -> option SolveCommand.URL)
    (fetch : string -> SolveCommand.thrown + SolveCommand.Response)
    (parseInt : string -> JS.num)
    (fileTypeFromBuffer : list Byte.byte -> option string)
    (url : string) (response : SolveCommand.Response)
    (reads : list SolveCommand.read) :
  SolveCommand.isValidDiscordUrl parseURL url = true ->
  fetch url = inr response ->
  SolveCommand.ok response = true ->
  SolveCommand.contentLength response = None ->
  SolveCommand.contentType response = None ->
  SolveCommand.body response = Some reads ->
  (forall r, r ∈ reads -> exists value, r = SolveCommand.Chunk value) ->
  10485760 < JS.len (SolveCommand.stream_bytes reads) ->
  SolveCommand.downloadAndValidateImage parseURL fetch parseInt
    fileTypeFromBuffer url
  = inl "File exceeds maximum size of 10485760 bytes".
Proof.
  intros Hurl Hfetch Hok Hlength Htype Hbody Hchunks Hover.
  unfold SolveCommand.downloadAndValidateImage, SolveCommand.download.
  rewrite Hurl, Hfetch, Hok, Hlength, Htype, Hbody. cbn [negb CommandLogger.present].
  rewrite (read_all_oversize reads [] 0 Hchunks); [done| |by vm_compute].
  change SolveCommand.MAX_FILE_SIZE with 10485760. lia.
Qed.

Lemma download_refuses_oversize_witness :
  let parseURL := fun _ : string =>
    Some {| SolveCommand.protocol := "https:";
            SolveCommand.hostname := "media.discordapp.net" |} in
  let response :=
    {| SolveCommand.ok := true; SolveCommand.status := 200;
       SolveCommand.statusText := "OK";
       SolveCommand.contentLength := None;
       SolveCommand.contentType := None;
       SolveCommand.body :=
         Some [SolveCommand.Chunk (replicate (Z.to_nat 10485761) Byte.x00)] |} in
  let fetch : string -> SolveCommand.thrown + SolveCommand.Response :=
    fun _ => inr response in
  SolveCommand.downloadAndValidateImage parseURL fetch (fun _ => JS.NaN)
    (fun _ => Some "image/png") "https://media.discordapp.net/big.png"
  = inl "File exceeds maximum size of 10485760 bytes".
Proof.
  intros parseURL response fetch.
  apply (download_refuses_oversize parseURL fetch (fun _ => JS.NaN)
           (fun _ => Some "image/png") "https://media.discordapp.net/big.png"
           response
           [SolveCommand.Chunk (replicate (Z.to_nat 10485761) Byte.x00)]);
    [reflexivity | reflexivity | reflexivity | reflexivity | reflexivity
    | reflexivity | | ].
  - intros r Hr. apply list_elem_of_singleton in Hr. by eexists.
  - unfold SolveCommand.stream_bytes, JS.len. cbn [flat_map].
    rewrite app_nil_r, length_replicate. lia.
Defined.

(** ** Records and blocks are decoded one by one *)

Lemma get_app_l {A : Type} (a b : list A) (i : Z) :
  i < JS.len a -> JS.get (a ++ b) i = JS.get a i.
Proof.
  intros Hi. unfold JS.get, JS.len in *. destruct (Z.ltb_spec i 0); [done|].
  apply lookup_app_l. lia.
Qed.

Lemma get_app_r {A : Type} (a b : list A) (i : Z) :
  0 <= i -> JS.get (a ++ b) (JS.len a + i) = JS.get b i.
Proof.
  intros Hi. unfold JS.get, JS.len.
  destruct (Z.ltb_spec (Z.of_nat (length a) + i) 0), (Z.ltb_spec i 0); try lia.
  rewrite lookup_app_r by lia. f_equal. lia.
Qed.

Lemma best_class_agree (a1 a2 : list Q) (o1 o2 : Z) (n : nat) :
  forall (c : Z) (acc : JS.num) (k : Z),
    (forall d, c <= d < c + Z.of_nat n ->
               JS.get a2 (o2 + 5 + d) = JS.get a1 (o1 + 5 + d)) ->
    YOLODecoder.best_class a2 o2 n c acc k
    = YOLODecoder.best_class a1 o1 n c acc k.
Proof.
  induction n as [|n IH]; intros c acc k Hget; cbn [YOLODecoder.best_class];
    [done|].
  rewrite (Hget c) by lia.
  destruct (JS.gt _ acc); apply IH; intros d Hd; apply Hget; lia.
Qed.

Lemma decode_box_agree (a1 a2 : list Q) (config : YOLODecoder.YOLODecoderConfig)
    (j n : Z) :
  (forall d, 0 <= d < YOLODecoder.stride config ->
             JS.get a2 ((n + j) * YOLODecoder.stride config + d)
             = JS.get a1 (j * YOLODecoder.stride config + d)) ->
  YOLODecoder.decode_box a2 config (n + j) []
  = Later.shifted n <$> YOLODecoder.decode_box a1 config j [].
Proof.
  intros Hget. unfold YOLODecoder.decode_box.
  pose proof (stride_pos config) as Hs.
  assert (5 <= YOLODecoder.stride config) as Hfive
    by (unfold YOLODecoder.stride; lia).
  assert (forall d, 0 <= d < YOLODecoder.stride config ->
            JS.get a2 ((n + j) * YOLODecoder.stride config + d)
            = JS.get a1 (j * YOLODecoder.stride config + d)) as Hread by done.
  pose proof (Hread 0 ltac:(lia)) as H0. rewrite !Z.add_0_r in H0.
  rewrite H0, (Hread 1), (Hread 2), (Hread 3), (Hread 4) by lia.
  destruct (JS.lt _ _); [done|].
  rewrite (best_class_agree a1 a2 (j * YOLODecoder.stride config)
             ((n + j) * YOLODecoder.stride config)).
  2: { intros d Hd. rewrite <- !Z.add_assoc. apply Hread.
       unfold YOLODecoder.stride. lia. }
  destruct (YOLODecoder.best_class _ _ _ _ _ _) as [maxClassProb maxClassIdx].
  by destruct (JS.ge _ _).
Qed.

Lemma shifted_zero {T : Type} (l : list (DecodedResult T)) :
  Later.shifted 0 <$> l = l.
Proof.
  induction l as [|[v c p] l IH]; [done|]. cbn. rewrite IH.
  unfold Later.shifted. cbn. done.
Qed.

Lemma flat_map_ext_seq {A : Type} (f g : nat -> list A) (start n : nat) :
  (forall j, (start <= j < start + n)%nat -> f j = g j) ->
  flat_map f (seq start n) = flat_map g (seq start n).
Proof.
  revert start. induction n as [|n IH]; intros start Hfg; [done|].
  cbn [seq flat_map]. rewrite Hfg by lia. f_equal. apply IH.
  intros j Hj. apply Hfg. lia.
Qed.

Lemma flat_map_fmap {A B C : Type} (h : B -> C) (f : A -> list B) (l : list A) :
  flat_map (fun a => h <$> f a) l = h <$> flat_map f l.
Proof.
  induction l as [|a l IH]; [done|]. cbn. by rewrite IH, fmap_app.
Qed.

Lemma flat_map_seq_shift {A : Type} (f : nat -> list A) (start n : nat) :
  flat_map f (seq start n) = flat_map (fun j => f (start + j)%nat) (seq 0 n).
Proof.
  rewrite <- (Nat.add_0_r start) at 1. rewrite <- fmap_add_seq.
  induction (seq 0 n) as [|j l IH]; [done|]. cbn. by rewrite IH.
Qed.

Lemma turns_add (whole : nat) (length stride : Z) :
  0 <= length -> 0 < stride ->
  Aux.turns (Z.of_nat whole * stride + length) stride
  = (whole + Aux.turns length stride)%nat.
Proof.
  intros Hlen Hs. unfold Aux.turns.
  replace (Z.of_nat whole * stride + length + stride - 1)
    with (Z.of_nat whole * stride + (length + stride - 1)) by lia.
  rewrite Z.div_add_l by lia.
  assert (0 <= (length + stride - 1) / stride) by (apply Z.div_pos; lia). lia.
Qed.

Lemma turns_exact (whole : nat) (stride : Z) :
  0 < stride -> Aux.turns (Z.of_nat whole * stride) stride = whole.
Proof.
  intros Hs.
  pose proof (turns_add whole 0 stride ltac:(done) Hs) as Hadd.
  rewrite Z.add_0_r in Hadd. rewrite Hadd.
  unfold Aux.turns. rewrite Z.div_small by lia. lia.
Qed.

(** X23.  The bounding-box decoder treats every record on its own (no
    suppression across records): for a buffer [first] of whole records
    followed by any buffer [second], decoding the concatenation gives the
    results of [first] followed by the results of [second], with the
    positions of the latter moved up by the number of records in
    [first]. *)
Theorem box_decode_append (defaultConfig : YOLODecoder.YOLODecoderConfig)
    (config : option YOLODecoder.YOLODecoderConfig) (first second : list Q)
    (whole : nat) :
  JS.len first
  = Z.of_nat whole
    * YOLODecoder.stride (YOLODecoder.merge defaultConfig config) ->
  exists results_first results_second,
    YOLODecoder.decode defaultConfig first config = Some results_first
    /\ YOLODecoder.decode defaultConfig second config = Some results_second
    /\ YOLODecoder.decode defaultConfig (first ++ second) config
       = Some (results_first
               ++ (Later.shifted (Z.of_nat whole) <$> results_second)).
Proof.
  intros Hwhole. rewrite !decode_unroll.
  set (finalConfig := YOLODecoder.merge defaultConfig config) in *.
  set (stride := YOLODecoder.stride finalConfig) in *.
  pose proof (stride_pos finalConfig) as Hs. fold stride in Hs.
  eexists _, _. split_and!; [done|done|]. f_equal.
  assert (JS.len (first ++ second) = Z.of_nat whole * stride + JS.len second)
    as -> by (unfold JS.len in *; rewrite length_app; lia).
  rewrite turns_add by (done || unfold JS.len; lia).
  rewrite Hwhole, turns_exact by done.
  rewrite seq_app, flat_map_app. f_equal.
  - apply flat_map_ext_seq. intros j Hj.
    rewrite <- (shifted_zero (YOLODecoder.decode_box first _ _ _)).
    apply (decode_box_agree first (first ++ second) finalConfig (Z.of_nat j) 0).
    intros d Hd. apply get_app_l. fold stride in Hd |- *. nia.
  - rewrite flat_map_seq_shift, Nat.add_0_l, <- flat_map_fmap.
    apply flat_map_ext. intros j.
    replace (Z.of_nat (whole + j)) with (Z.of_nat whole + Z.of_nat j) by lia.
    apply decode_box_agree. intros d Hd. fold stride in Hd |- *.
    replace ((Z.of_nat whole + Z.of_nat j) * stride + d)
      with (JS.len first + (Z.of_nat j * stride + d)) by lia.
    apply get_app_r. nia.
Qed.

Lemma box_decode_append_witness :
  let config :=
    YOLODecoder.new
      {| YOLODecoder.numClasses := 1; YOLODecoder.classNames := ["cat"];
         YOLODecoder.iouThreshold := None; YOLODecoder.minConfidence := None |} in
  exists results_first results_second,
    YOLODecoder.decode config [1; 2; 3; 4; 0.9; 0.8]%Q None = Some results_first
    /\ YOLODecoder.decode config [1; 2; 3; 4; 0.9; 0.8]%Q None
       = Some results_second
    /\ YOLODecoder.decode config
         ([1; 2; 3; 4; 0.9; 0.8]%Q ++ [1; 2; 3; 4; 0.9; 0.8]%Q) None
       = Some (results_first ++ (Later.shifted 1 <$> results_second)).
Proof.
  intros config.
  apply (box_decode_append config None [1; 2; 3; 4; 0.9; 0.8]%Q
           [1; 2; 3; 4; 0.9; 0.8]%Q 1).
  reflexivity.
Defined.

Lemma chunk_app_l (a b : list Q) (size p : nat) :
  ((p + 1) * size <= length a)%nat ->
  Spec.chunk (a ++ b) size p = Spec.chunk a size p.
Proof.
  intros Hin. unfold Spec.chunk.
  rewrite drop_app_le by lia. apply take_app_le.
  rewrite length_drop. lia.
Qed.

Lemma chunk_app_r (a b : list Q) (size whole p : nat) :
  length a = (whole * size)%nat ->
  Spec.chunk (a ++ b) size (whole + p) = Spec.chunk b size p.
Proof.
  intros Hlen. unfold Spec.chunk.
  rewrite drop_app_ge by lia. do 2 f_equal. lia.
Qed.

Lemma omap_ext_seq {A : Type} (f g : nat -> option A) (start n : nat) :
  (forall j, (start <= j < start + n)%nat -> f j = g j) ->
  omap f (seq start n) = omap g (seq start n).
Proof.
  revert start. induction n as [|n IH]; intros start Hfg; [done|].
  cbn [seq]. rewrite !omap_cons, Hfg by lia. f_equal. apply IH.
  intros j Hj. apply Hfg. lia.
Qed.

Lemma omap_seq_shift {A : Type} (f : nat -> option A) (start n : nat) :
  omap f (seq start n) = omap (fun j => f (start + j)%nat) (seq 0 n).
Proof.
  rewrite <- (Nat.add_0_r start) at 1. rewrite <- fmap_add_seq.
  induction (seq 0 n) as [|j l IH]; [done|].
  rewrite fmap_cons, !omap_cons. by rewrite IH.
Qed.

(** X24.  The one-hot decoder treats every block on its own: when it
    returns on two buffers, with a positive depth, it returns on their
    concatenation the results of the first followed by the results of
    the second, the positions of the latter moved up by the number of
    blocks of the first. *)
Theorem onehot_decode_append (first second : list Q) (depth : Z)
    (decoder : Z -> string) (minConfidence : option Q)
    (results_first results_second : list (DecodedResult string)) :
  0 < depth ->
  let options := {| Onehot.depth := depth; Onehot.decoder := decoder;
                    Onehot.minConfidence := minConfidence |} in
  Onehot.onehotDecode first options = inr results_first ->
  Onehot.onehotDecode second options = inr results_second ->
  Onehot.onehotDecode (first ++ second) options
  = inr (results_first
         ++ (Later.shifted (JS.len first / depth) <$> results_second)).
Proof.
  intros Hdepth options. subst options.
  intros (Hne1 & Hrem1 & ->)%decode_checked_inr
         (Hne2 & Hrem2 & ->)%decode_checked_inr.
  cbn [Onehot.depth Onehot.decoder Onehot.minConfidence] in *.
  pose proof (exact_blocks first depth Hdepth Hrem1) as Hexact1.
  pose proof (exact_blocks second depth Hdepth Hrem2) as Hexact2.
  set (n1 := Z.to_nat (JS.len first / depth)) in *.
  set (n2 := Z.to_nat (JS.len second / depth)) in *.
  assert (JS.len (first ++ second) = Z.of_nat (n1 + n2) * depth) as Hlen.
  { unfold JS.len. rewrite length_app. nia. }
  assert (JS.len first / depth = Z.of_nat n1) as Hn1.
  { unfold n1. rewrite Z2Nat.id; [done|]. apply Z.div_pos; unfold JS.len; lia. }
  unfold Onehot.onehotDecode.
  cbn [Onehot.depth Onehot.decoder Onehot.minConfidence].
  rewrite decode_checked_spec.
  2: { by destruct first. }
  2: { unfold JS.rem. destruct (Z.eqb_spec depth 0); [lia|].
       rewrite Hlen, Z.rem_mul; [done|lia]. }
  f_equal. unfold Spec.onehot at 1.
  rewrite Hlen, Z.div_mul, Nat2Z.id by lia.
  rewrite seq_app, omap_app. f_equal.
  - apply omap_ext_seq. intros p Hp.
    rewrite chunk_app_l; [done|]. fold n1 in Hp. nia.
  - unfold Spec.onehot.
    rewrite Hn1, list_fmap_omap, Nat.add_0_l, omap_seq_shift.
    fold n2. apply omap_ext_seq. intros q Hq.
    rewrite chunk_app_r by lia.
    unfold Spec.onehot_position.
    destruct (Spec.argmax _) as [[i m]|]; [|done].
    destruct (Qle_bool _ m); [|done]. cbn. unfold Later.shifted. cbn.
    do 2 f_equal. lia.
Qed.

Lemma onehot_decode_append_witness :
  Onehot.onehotDecode ([0.1; 0.7; 0.2]%Q ++ [0.4; 0.4; 0.3]%Q)
    {| Onehot.depth := 3; Onehot.decoder := Onehot.lowercaseDecoder;
       Onehot.minConfidence := None |}
  = inr ([mkResult "b" (JS.Fin 0.7%Q) 0]
         ++ (Later.shifted (3 / 3) <$> [mkResult "a" (JS.Fin 0.4%Q) 0])).
Proof.
  apply (onehot_decode_append [0.1; 0.7; 0.2]%Q [0.4; 0.4; 0.3]%Q 3
           Onehot.lowercaseDecoder None); [lia | reflexivity | reflexivity].
Defined.
